(** * generate_cone.py: platform detection and hanging-cone generation

    A shallow embedding of [src/generate_cone.py], followed by the
    properties of its codec, detector, generator and merge.

    - Python [int] is [Z]; a [str] is a [string]; a [dict] from coordinate
      keys to block ids is an association list with unique keys kept in
      insertion order (the order [for coord in blocks] iterates in).
    - Python [set]s of [(x, z)] pairs are [gset (Z * Z)].
    - Python [float]s are idealised as real numbers with exact arithmetic:
      [math.sin], [math.cos], [math.sqrt] and [**] are the functions of the
      Reals library, [math.atan2] is defined from [atan]. The statements
      about them below hold with a margin, or by monotonicity, and do not
      hinge on rounding.
    - [random.random()] reads the next element of an explicit sequence of
      draws, which every function that draws takes and returns.
    - [int(s)] is modelled on ASCII input (blanks, sign, digits, single
      underscores between digits).
    - [ValueError] and the exhaustion of the iteration budget of the flood
      fill are explicit outcomes; console output and file access are left
      out. *)

From Stdlib Require Import ZArith String Ascii List Decimal DecimalString DecimalPos.
From Stdlib Require Import Permutation Lia Reals Lra.
From stdpp Require Import gmap strings list.

Local Open Scope Z_scope.

Set Warnings "-clear-no-such-hyp".

(** ** Grid addressing: [f"{x},{y},{z}"] and [map(int, coord.split(','))] *)

Module Codec.

(** [str(n)] for an [int]: decimal digits, a leading [-] for negatives. *)
Definition str (n : Z) : string := NilZero.string_of_int (Z.to_int n).

(** The key [f"{x},{y},{z}"]. *)
Definition encode (x y z : Z) : string :=
  str x +:+ "," +:+ str y +:+ "," +:+ str z.

(** [s.split(',')]: the pieces between commas, at least one piece. *)
Fixpoint split_comma (s : string) : list string :=
  match s with
  | EmptyString => [EmptyString]
  | String c s' =>
      if Ascii.eqb c "," then EmptyString :: split_comma s'
      else match split_comma s' with
           | p :: ps => String c p :: ps
           | [] => [String c EmptyString]
           end
  end.

(** The ASCII characters [str.strip] removes. *)
Definition is_space (c : ascii) : bool :=
  let n := nat_of_ascii c in
  ((9 <=? n)%nat && (n <=? 13)%nat) || ((28 <=? n)%nat && (n <=? 32)%nat).

Fixpoint lstrip (s : list ascii) : list ascii :=
  match s with
  | c :: s' => if is_space c then lstrip s' else s
  | [] => []
  end.

Definition strip (s : list ascii) : list ascii :=
  rev (lstrip (rev (lstrip s))).

Definition digit_val (c : ascii) : option Z :=
  let n := nat_of_ascii c in
  if ((48 <=? n)%nat && (n <=? 57)%nat)%bool then Some (Z.of_nat n - 48) else None.

(** The digits after the first one; single underscores may separate digits. *)
Fixpoint digits_value (acc : Z) (s : list ascii) : option Z :=
  match s with
  | [] => Some acc
  | c :: s' =>
      if Ascii.eqb c "_" then
        match s' with
        | d :: s'' =>
            match digit_val d with
            | Some v => digits_value (10 * acc + v) s''
            | None => None
            end
        | [] => None
        end
      else
        match digit_val c with
        | Some v => digits_value (10 * acc + v) s'
        | None => None
        end
  end.

Definition unsigned_value (s : list ascii) : option Z :=
  match s with
  | c :: s' =>
      match digit_val c with
      | Some v => digits_value v s'
      | None => None
      end
  | [] => None
  end.

(** [int(s)] on ASCII input: [None] stands for [ValueError]. *)
Definition py_int (s : string) : option Z :=
  match strip (list_ascii_of_string s) with
  | c :: r =>
      if Ascii.eqb c "-" then Z.opp <$> unsigned_value r
      else if Ascii.eqb c "+" then unsigned_value r
      else unsigned_value (c :: r)
  | [] => None
  end.

(** [x, y, z = map(int, coord.split(','))]: exactly three pieces, each an
    integer literal; anything else raises [ValueError]. *)
Definition decode (coord : string) : option (Z * Z * Z) :=
  match split_comma coord with
  | [a; b; c] =>
      match py_int a, py_int b, py_int c with
      | Some x, Some y, Some z => Some (x, y, z)
      | _, _, _ => None
      end
  | _ => None
  end.

End Codec.

(** ** Python dicts with string keys *)

Module Dict.

(** [d[k]] / [k in d]: the value stored with [k], if any. *)
Fixpoint get (k : string) (d : list (string * Z)) : option Z :=
  match d with
  | [] => None
  | (k', v) :: d' => if decide (k = k') then Some v else get k d'
  end.

(** [d[k] = v]: replaces the value of an existing key where it stands,
    appends a new key at the end. *)
Fixpoint set (k : string) (v : Z) (d : list (string * Z)) : list (string * Z) :=
  match d with
  | [] => [(k, v)]
  | (k', v') :: d' =>
      if decide (k = k') then (k, v) :: d' else (k', v') :: set k v d'
  end.

(** [d1.update(d2)]. *)
Definition update (d1 d2 : list (string * Z)) : list (string * Z) :=
  fold_left (fun d kv => set kv.1 kv.2 d) d2 d1.

(** The finite map a dict denotes. *)
Definition to_map (d : list (string * Z)) : gmap string Z := list_to_map d.

End Dict.

(** ** [find_platforms] *)

Inductive outcome (A : Type) : Type :=
  | Done (a : A)
  | ValueError
  | Timeout.
Arguments Done {A} a.
Arguments ValueError {A}.
Arguments Timeout {A}.

Module Detector.
Import Codec.

Definition get_neighbors (x z : Z) : list (Z * Z) :=
  [(x + 1, z); (x - 1, z); (x, z + 1); (x, z - 1)].

(** [key in blocks and blocks[key] == 24] for [key = f"{nx},0,{nz}"]. *)
Definition is_target (blocks : list (string * Z)) (n : Z * Z) : Prop :=
  Dict.get (encode n.1 0 n.2) blocks = Some 24.

#[global] Instance is_target_dec blocks n : Decision (is_target blocks n) :=
  decide (Dict.get (encode n.1 0 n.2) blocks = Some 24).

(** The [while queue:] loop of [flood_fill]; [fuel] bounds the number of
    iterations, [None] says the bound was reached. Returns the updated
    [visited] and [platform] sets. *)
Fixpoint flood_fill_loop (fuel : nat) (blocks : list (string * Z))
    (queue : list (Z * Z)) (visited platform : gset (Z * Z))
    : option (gset (Z * Z) * gset (Z * Z)) :=
  match fuel with
  | O => None
  | S fuel' =>
      match queue with
      | [] => Some (visited, platform)
      | c :: queue' =>
          if decide (c ∈ visited) then
            flood_fill_loop fuel' blocks queue' visited platform
          else
            let visited' := {[ c ]} ∪ visited in
            let platform' := {[ c ]} ∪ platform in
            flood_fill_loop fuel' blocks
              (queue' ++ filter (fun n => is_target blocks n ∧ n ∉ visited')
                                (get_neighbors c.1 c.2))
              visited' platform'
      end
  end.

Definition flood_fill (fuel : nat) (blocks : list (string * Z))
    (visited : gset (Z * Z)) (start : Z * Z) :=
  flood_fill_loop fuel blocks [start] visited ∅.

(** The [for coord in blocks:] loop; [todo] is the part of the dict still to
    be iterated. A dict has unique keys, so [blocks[coord]] is the value
    stored with [coord]. *)
Fixpoint scan (fuel : nat) (blocks todo : list (string * Z))
    (visited : gset (Z * Z)) (platforms : list (gset (Z * Z)))
    : outcome (list (gset (Z * Z))) :=
  match todo with
  | [] => Done platforms
  | (coord, b) :: todo' =>
      if decide (b ≠ 24) then scan fuel blocks todo' visited platforms
      else
        match decode coord with
        | None => ValueError
        | Some (x, _, z) =>
            if decide ((x, z) ∈ visited) then
              scan fuel blocks todo' visited platforms
            else
              match flood_fill fuel blocks visited (x, z) with
              | None => Timeout
              | Some (visited', platform) =>
                  scan fuel blocks todo' visited'
                    (if decide (50 < size platform)%nat
                     then platforms ++ [platform] else platforms)
              end
        end
  end.

Definition find_platforms (fuel : nat) (blocks : list (string * Z)) :=
  scan fuel blocks blocks ∅ [].

(** Iterations that always suffice for one flood fill over [blocks]. *)
Definition flood_fuel (blocks : list (string * Z)) : nat :=
  5 * length blocks + 7.

End Detector.

(** ** The cone generator *)

Module Generator.
Import Codec.
Local Open Scope R_scope.

(** The source of randomness: the sequence of values the successive calls
    of [random.random()] return. *)
Definition random (s : nat -> R) : R * (nat -> R) :=
  (s O, fun n => s (S n)).

(** [random.uniform(a, b)] is [a + (b - a) * random()]. *)
Definition uniform (a b : R) (s : nat -> R) : R * (nat -> R) :=
  let '(u, s') := random s in (a + (b - a) * u, s').

(** [[random.uniform(a, b) for _ in range(n)]]. *)
Fixpoint uniform_list (n : nat) (a b : R) (s : nat -> R) : list R * (nat -> R) :=
  match n with
  | O => ([], s)
  | S n' =>
      let '(v, s1) := uniform a b s in
      let '(vs, s2) := uniform_list n' a b s1 in
      (v :: vs, s2)
  end.

(** [math.atan2(y, x)]. *)
Definition atan2 (y x : R) : R :=
  if Rlt_dec 0 x then atan (y / x)
  else if Rlt_dec x 0 then
    (if Rle_dec 0 y then atan (y / x) + PI else atan (y / x) - PI)
  else if Rlt_dec 0 y then PI / 2
  else if Rlt_dec y 0 then - (PI / 2)
  else 0.

(** [int(r)] for a float: truncation toward zero. *)
Definition trunc (r : R) : Z :=
  if Rle_dec 0 r then Int_part r else (- Int_part (- r))%Z.

(** [range(a, b)]. *)
Definition range (a b : Z) : list Z := seqZ a (b - a).

(** The weight of one noise point in [get_radius_offset]. *)
Definition weight (angle noise_angle : R) : R :=
  1 / (1 + Rabs (sin (angle - noise_angle))).

(** The loop of [get_radius_offset]: the final [(total, weights)]. *)
Definition radius_sums (angles offsets : list R) (angle : R) : R * R :=
  fold_left
    (fun acc p =>
       let w := weight angle p.1 in (acc.1 + p.2 * w, acc.2 + w))
    (combine angles offsets) (0, 0).

Definition get_radius_offset (angles offsets : list R) (angle : R) : R :=
  let '(total, weights) := radius_sums angles offsets angle in
  if Rlt_dec 0 weights then total / weights else 1.

(** [37 if random.random() < 0.7 else 4]. *)
Definition stone_or_cobble (s : nat -> R) : Z * (nat -> R) :=
  let '(r, s') := random s in ((if Rlt_dec r 0.7 then 37 else 4)%Z, s').

(** The body of the two nested loops of [create_organic_platform_layer]:
    one offset [(x, z)], the layer built so far and the random state. In
    [radius - 2 <= distance <= radius * radius_offset] the second comparison
    repeats the enclosing test, so only the first one decides. *)
Definition cap_cell (radius : Z) (angles offsets : list R)
    (center_x center_z x z : Z) (st : list (string * Z) * (nat -> R))
    : list (string * Z) * (nat -> R) :=
  let '(layer_blocks, s) := st in
  let distance := sqrt (IZR (x * x + z * z)) in
  let angle := atan2 (IZR z) (IZR x) in
  let radius_offset := get_radius_offset angles offsets angle in
  if Rle_dec distance (IZR radius * radius_offset) then
    let '(block_id, s') :=
      if Rle_dec (IZR radius - 2) distance then
        let noise := sin (angle * 4) * 0.5 + cos (distance * 0.8) * 0.5 in
        if Rlt_dec 0 noise then stone_or_cobble s else (24%Z, s)
      else
        let '(r, s1) := random s in
        if Rlt_dec r 0.9 then (24%Z, s1) else stone_or_cobble s1 in
    (Dict.set (encode (x + center_x) 0 (z + center_z)) block_id layer_blocks, s')
  else (layer_blocks, s).

Definition create_organic_platform_layer (center_x center_z radius : Z)
    (s : nat -> R) : list (string * Z) * (nat -> R) :=
  let max_radius := (radius + 2)%Z in
  let '(angles, s1) := uniform_list 8 0 (2 * PI) s in
  let '(offsets, s2) := uniform_list 8 0.8 1.2 s1 in
  fold_left
    (fun st x =>
       fold_left
         (fun st z => cap_cell radius angles offsets center_x center_z x z st)
         (range (- max_radius) (max_radius + 1)) st)
    (range (- max_radius) (max_radius + 1)) ([], s2).

(** [max_radius * (1 - (y / depth) ** 0.7)]; in the loop [1 <= y < depth],
    so the base of the power is positive and [Rpower] is the power. *)
Definition current_radius (max_radius depth y : Z) : R :=
  IZR max_radius * (1 - Rpower (IZR y / IZR depth) 0.7).

(** The block id of a hanging cell:
    [if random() < 0.6: 37 elif random() < 0.3: 24 else: 4]. *)
Definition hanging_block (s : nat -> R) : Z * (nat -> R) :=
  let '(r1, s1) := random s in
  if Rlt_dec r1 0.6 then (37%Z, s1)
  else
    let '(r2, s2) := random s1 in
    if Rlt_dec r2 0.3 then (24%Z, s2) else (4%Z, s2).

(** The body of the innermost loop of [generate_hanging_cone]. *)
Definition hanging_cell (cur : R) (center_x center_z y x z : Z)
    (st : list (string * Z) * (nat -> R)) : list (string * Z) * (nat -> R) :=
  let '(cone_blocks, s) := st in
  let distance := sqrt (IZR (x * x + z * z)) in
  if Rle_dec distance cur then
    let '(skip, s1) :=
      if Rlt_dec (cur - 2) distance then
        let '(r, s') := random s in
        (if Rlt_dec r 0.4 then true else false, s')
      else (false, s) in
    if skip then (cone_blocks, s1)
    else
      let '(block_id, s2) := hanging_block s1 in
      (Dict.set (encode (x + center_x) (- y) (z + center_z)) block_id cone_blocks, s2)
  else (cone_blocks, s).

(** One iteration of [for y in range(1, depth)]. *)
Definition hanging_layer (max_radius depth center_x center_z y : Z)
    (st : list (string * Z) * (nat -> R)) : list (string * Z) * (nat -> R) :=
  let cur := current_radius max_radius depth y in
  fold_left
    (fun st x =>
       fold_left (fun st z => hanging_cell cur center_x center_z y x z st)
                 (range (- trunc cur) (trunc cur + 1)) st)
    (range (- trunc cur) (trunc cur + 1)) st.

(** The hanging layers alone, added to [cone_blocks]. *)
Definition hanging_layers (max_radius depth center_x center_z : Z)
    (st : list (string * Z) * (nat -> R)) : list (string * Z) * (nat -> R) :=
  fold_left (fun st y => hanging_layer max_radius depth center_x center_z y st)
            (range 1 depth) st.

(** [generate_hanging_cone(center_x, center_z, start_y, depth)];
    [start_y] is not used by the source. *)
Definition generate_hanging_cone (center_x center_z start_y depth : Z)
    (s : nat -> R) : list (string * Z) * (nat -> R) :=
  let max_radius := 15%Z in
  let '(platform_blocks, s1) :=
    create_organic_platform_layer center_x center_z max_radius s in
  let cone_blocks := Dict.update [] platform_blocks in
  hanging_layers max_radius depth center_x center_z (cone_blocks, s1).

End Generator.

(** ** The orchestrator: the in-memory part of [main] *)

Module Main.
Import Codec Detector Generator.

(** [sum(xs) // len(xs)] over the members of a platform, for x and z. *)
Definition center (platform : gset (Z * Z)) : Z * Z :=
  let xs := (elements platform).*1 in
  let zs := (elements platform).*2 in
  (foldr Z.add 0 xs `div` Z.of_nat (length xs),
   foldr Z.add 0 zs `div` Z.of_nat (length zs)).

(** The loop [for platform in platforms:], from a given accumulated
    [all_cone_blocks] and random state. *)
Definition cone_loop (platforms : list (gset (Z * Z)))
    (st : list (string * Z) * (nat -> R)) : list (string * Z) * (nat -> R) :=
  fold_left
    (fun st platform =>
       let '(all_cone_blocks, s) := st in
       let '(center_x, center_z) := center platform in
       let '(cone_blocks, s') := generate_hanging_cone center_x center_z 0 30 s in
       (Dict.update all_cone_blocks cone_blocks, s'))
    platforms st.

(** The cones generated for the platforms, in order, with the random state
    threaded as [cone_loop] does. *)
Fixpoint cones (platforms : list (gset (Z * Z))) (s : nat -> R)
    : list (list (string * Z)) :=
  match platforms with
  | [] => []
  | platform :: rest =>
      let '(center_x, center_z) := center platform in
      let '(cone_blocks, s') := generate_hanging_cone center_x center_z 0 30 s in
      cone_blocks :: cones rest s'
  end.

(** The loop [for coord, block_id in all_cone_blocks.items():]. *)
Definition merge (blocks all_cone_blocks : list (string * Z)) : list (string * Z) :=
  fold_left
    (fun blocks kv =>
       match Dict.get kv.1 blocks with
       | None => Dict.set kv.1 kv.2 blocks
       | Some _ => blocks
       end)
    all_cone_blocks blocks.

(** [main] between loading and saving: the new [map_data['blocks']]. *)
Definition run (fuel : nat) (blocks : list (string * Z)) (s : nat -> R)
    : outcome (list (string * Z)) :=
  match find_platforms fuel blocks with
  | Done platforms => Done (merge blocks (cone_loop platforms ([], s)).1)
  | ValueError => ValueError
  | Timeout => Timeout
  end.

(** The same loop with its counter: the new [map_data['blocks']] and
    [blocks_added]. *)
Definition merge_count (blocks all_cone_blocks : list (string * Z))
    : list (string * Z) * Z :=
  fold_left
    (fun st kv =>
       match Dict.get kv.1 st.1 with
       | None => (Dict.set kv.1 kv.2 st.1, st.2 + 1)
       | Some _ => st
       end)
    all_cone_blocks (blocks, 0).

End Main.

(** ** Vocabulary of the statements *)

Module Spec.
Import Codec Detector.

(** No coordinate belongs to two platforms of the list. *)
Definition pairwise_disjoint (ps : list (gset (Z * Z))) : Prop :=
  forall i j p q, ps !! i = Some p -> ps !! j = Some q -> i ≠ j -> p ## q.

(** The [(x, z)] a key of the grid decodes to, whatever its [y]. *)
Definition key_cell (kv : string * Z) : option (Z * Z) :=
  match decode kv.1 with
  | Some (x, _, z) => Some (x, z)
  | None => None
  end.

(** The cells named by the keys of a grid: all the flood fills of one
    detection can ever visit. *)
Definition cells_of (blocks : list (string * Z)) : gset (Z * Z) :=
  list_to_set (omap key_cell blocks).

(** The 8x8 square with corner [(x0, z0)]: its cells, and the grid that
    holds block 24 at [y = 0] on exactly these cells. *)
Definition square_offsets : list (Z * Z) :=
  i ← seqZ 0 8; j ← seqZ 0 8; [(i, j)].

Definition square_cells (x0 z0 : Z) : list (Z * Z) :=
  (fun ij => (x0 + ij.1, z0 + ij.2)) <$> square_offsets.

Definition square_grid (x0 z0 : Z) : list (string * Z) :=
  (fun c => (encode c.1 0 c.2, 24)) <$> square_cells x0 z0.

(** A grid with a block 24 above the plane, at [(0, 5, 0)], next to a row of
    fifty blocks 24 on the plane, at [(1, 0, 0)] ... [(50, 0, 0)]. *)
Definition raised_seed_grid : list (string * Z) :=
  ("0,5,0"%string, 24) :: ((fun i => (encode i 0 0, 24)) <$> seqZ 1 50).

(** What a key reads back as after one decode and encode. *)
Definition reencode (k : string) : option string :=
  match decode k with
  | Some (x, y, z) => Some (encode x y z)
  | None => None
  end.

(** The characters of the decimal numerals [str] prints: no comma, no
    blank. *)
Definition numeral_char (c : ascii) : Prop :=
  Ascii.eqb c "," = false /\ is_space c = false.

(** Two 8x8 squares of block 24 on the plane, twelve cells apart. *)
Definition two_squares_grid : list (string * Z) :=
  square_grid 0 0 ++ square_grid 20 0.

(** Every draw lies in [[lo, hi]]; every draw lies in [[0, 1)], as those of
    [random.random()] do. *)
Definition draws_between (lo hi : R) (s : nat -> R) : Prop :=
  forall n, (lo <= s n <= hi)%R.

Definition unit_draws (s : nat -> R) : Prop := forall n, (0 <= s n < 1)%R.

(** The test [distance <= radius * radius_offset] of the cap layer at the
    offset [(x, z)]. *)
Definition cap_included (radius : Z) (angles offsets : list R) (x z : Z) : Prop :=
  (sqrt (IZR (x * x + z * z))
   <= IZR radius
      * Generator.get_radius_offset angles offsets
          (Generator.atan2 (IZR z) (IZR x)))%R.

(** The Euclidean distance of the cell [(x, z)] from the center [(cx, cz)]. *)
Definition center_distance (cx cz x z : Z) : R :=
  sqrt (IZR ((x - cx) * (x - cx) + (z - cz) * (z - cz))).

(** The block id two successive draws give: stone below 0.6 on the first,
    else mossy cobblestone below 0.3 on the second, else cobblestone. *)
Definition two_draw_block (r1 r2 : R) : Z :=
  if Rlt_dec r1 0.6 then 37 else if Rlt_dec r2 0.3 then 24 else 4.

(** [linked blocks P a c]: [c] is reached from [a] by steps to 4-adjacent
    cells, each step landing on a cell of [P] that holds block 24 at
    [y = 0]. *)
Inductive linked (blocks : list (string * Z)) (P : gset (Z * Z)) (a : Z * Z)
    : Z * Z -> Prop :=
  | linked_here : a ∈ P -> linked blocks P a a
  | linked_step b c :
      linked blocks P a b -> c ∈ get_neighbors b.1 b.2 ->
      is_target blocks c -> c ∈ P -> linked blocks P a c.

(** A platform grown from a seed: the seed comes from a key of the grid with
    value 24, and every member is linked to it inside the platform. *)
Definition seeded (blocks : list (string * Z)) (p : gset (Z * Z)) : Prop :=
  exists coord x y z,
    (coord, 24) ∈ blocks /\ decode coord = Some (x, y, z) /\
    (x, z) ∈ p /\ forall c, c ∈ p -> linked blocks p (x, z) c.

(** A platform that holds, with each member on the plane, the neighbours of
    it that hold block 24 at [y = 0]. *)
Definition saturated (blocks : list (string * Z)) (p : gset (Z * Z)) : Prop :=
  forall c n, c ∈ p -> is_target blocks c ->
              n ∈ get_neighbors c.1 c.2 -> is_target blocks n -> n ∈ p.


(** A grid of three entries: two blocks 24 side by side on the plane and
    one cobblestone block elsewhere. *)
Definition three_blocks_grid : list (string * Z) :=
  [(encode 1 0 1, 24); (encode 2 0 1, 24); (encode 7 3 7, 4)].

(** The block ids the generator writes: stone, mossy cobblestone and
    cobblestone. *)
Definition cone_block (v : Z) : Prop := v = 37 \/ v = 24 \/ v = 4.

(** The entries of a grid that hold block 24. *)
Definition targets_only (blocks : list (string * Z)) : list (string * Z) :=
  filter (fun kv => kv.2 = 24) blocks.

(** The number of commas of a key. *)
Definition commas (s : string) : nat :=
  length (filter (fun c => c = ","%char) (list_ascii_of_string s)).

(** The dict that holds the blocks [l], each given by its offsets from the
    axis, its layer and its id, around the center [(cx, cz)]. *)
Definition place (cx cz : Z) (l : list (Z * Z * Z * Z)) : list (string * Z) :=
  (fun e => (encode (e.1.1.1 + cx) e.1.1.2 (e.1.2 + cz), e.2)) <$> l.

(** Two states of the generator that hold the same blocks, one around
    [(cx, cz)] and one around the origin, with the same draws left. *)
Definition same_shape (cx cz : Z)
    (st1 st2 : list (string * Z) * (nat -> R)) : Prop :=
  st1.2 = st2.2 /\ exists l, st1.1 = place cx cz l /\ st2.1 = place 0 0 l.

(** Every block 24 of the grid lies on the plane, under the key the
    generator itself would print. *)
Definition flat_targets (blocks : list (string * Z)) : Prop :=
  forall coord, (coord, 24) ∈ blocks -> exists x z, coord = encode x 0 z.

End Spec.

(** * Properties *)

Import Codec Detector Spec.

(** ** The coordinate codec *)

Example encode_neg : encode (-3) 0 12 = "-3,0,12"%string.
Proof. reflexivity. Qed.

Example decode_neg : decode "-3,0,12" = Some (-3, 0, 12).
Proof. reflexivity. Qed.

Example decode_loose : decode " +03,0,1_2 " = Some (3, 0, 12).
Proof. reflexivity. Qed.

Example decode_bad : decode "1,2" = None /\ decode "1,,2" = None
  /\ decode "1,2,3,4" = None /\ decode "1,- 2,3" = None.
Proof. repeat split; reflexivity. Qed.

Section CodecFacts.
Import Codec.

Lemma uint_chars d :
  Forall numeral_char (list_ascii_of_string (NilEmpty.string_of_uint d)).
Proof.
  induction d; simpl; constructor; try assumption; split; reflexivity.
Qed.

Lemma str_chars n : Forall numeral_char (list_ascii_of_string (str n)).
Proof.
  unfold str.
  destruct n as [|p|p]; simpl.
  - repeat constructor.
  - unfold NilZero.string_of_uint.
    destruct (Pos.to_uint p) eqn:E; try (rewrite <- E; apply uint_chars).
    repeat constructor.
  - constructor; [split; reflexivity|].
    unfold NilZero.string_of_uint.
    destruct (Pos.to_uint p) eqn:E; try (rewrite <- E; apply uint_chars).
    repeat constructor.
Qed.

Lemma split_comma_plain s :
  Forall numeral_char (list_ascii_of_string s) -> split_comma s = [s].
Proof.
  induction s as [|c s IH]; simpl; [reflexivity|].
  intros H. apply Forall_cons in H as [[Hc _] Hs].
  rewrite Hc, IH by assumption. reflexivity.
Qed.

Lemma split_comma_app s t :
  Forall numeral_char (list_ascii_of_string s) ->
  split_comma (s +:+ "," +:+ t) = s :: split_comma t.
Proof.
  induction s as [|c s IH]; simpl; [reflexivity|].
  intros H. apply Forall_cons in H as [[Hc _] Hs].
  rewrite Hc. change (String.app s (String "," t)) with (s +:+ "," +:+ t).
  rewrite IH by assumption. reflexivity.
Qed.

Lemma lstrip_head c s : is_space c = false -> lstrip (c :: s) = c :: s.
Proof. intros H. simpl. rewrite H. reflexivity. Qed.

Lemma lstrip_plain s : Forall numeral_char s -> lstrip s = s.
Proof.
  destruct 1 as [|c s [_ Hc] _]; [reflexivity|]. apply lstrip_head, Hc.
Qed.

Lemma strip_plain s : Forall numeral_char s -> strip s = s.
Proof.
  intros H. unfold strip. rewrite (lstrip_plain s H).
  rewrite lstrip_plain by (apply Forall_rev; exact H).
  apply rev_involutive.
Qed.

Lemma digits_value_acc d acc :
  digits_value (Z.pos acc) (list_ascii_of_string (NilEmpty.string_of_uint d))
  = Some (Z.pos (Pos.of_uint_acc d acc)).
Proof.
  revert acc. induction d; intros acc; simpl; try reflexivity.
  all: rewrite <- IHd; f_equal.
  all: match goal with
       | |- context [Z.of_nat (nat_of_ascii ?c)] =>
           let v := eval vm_compute in (Z.of_nat (nat_of_ascii c)) in
           change (Z.of_nat (nat_of_ascii c)) with v
       end; lia.
Qed.

Lemma digits_value_zero d :
  digits_value 0 (list_ascii_of_string (NilEmpty.string_of_uint d))
  = Some (Z.of_N (Pos.of_uint d)).
Proof.
  induction d; simpl; try reflexivity; try exact IHd;
    rewrite <- digits_value_acc; reflexivity.
Qed.

Lemma unsigned_value_uint d :
  d <> Nil ->
  unsigned_value (list_ascii_of_string (NilEmpty.string_of_uint d))
  = Some (Z.of_N (Pos.of_uint d)).
Proof.
  destruct d; intros Hd; try congruence; simpl;
    first [ apply digits_value_zero
          | rewrite <- digits_value_acc; reflexivity ].
Qed.

Lemma unsigned_value_pos p :
  unsigned_value (list_ascii_of_string (NilZero.string_of_uint (Pos.to_uint p)))
  = Some (Z.pos p).
Proof.
  pose proof (Unsigned.to_uint_nonnil p) as Hn.
  replace (NilZero.string_of_uint (Pos.to_uint p))
    with (NilEmpty.string_of_uint (Pos.to_uint p))
    by (destruct (Pos.to_uint p); congruence || reflexivity).
  rewrite unsigned_value_uint, Unsigned.of_to by assumption. reflexivity.
Qed.

Lemma py_int_str n : py_int (str n) = Some n.
Proof.
  unfold py_int. rewrite strip_plain by apply str_chars.
  destruct n as [|p|p]; [reflexivity| |].
  - pose proof (unsigned_value_pos p) as H.
    unfold str. simpl.
    destruct (list_ascii_of_string (NilZero.string_of_uint (Pos.to_uint p)))
      as [|c r] eqn:E; [discriminate|].
    pose proof (str_chars (Z.pos p)) as Hc. unfold str in Hc. simpl in Hc.
    rewrite E in Hc.
    destruct (Ascii.eqb c "-") eqn:E1.
    { apply Ascii.eqb_eq in E1. subst c. discriminate. }
    destruct (Ascii.eqb c "+") eqn:E2.
    { apply Ascii.eqb_eq in E2. subst c. discriminate. }
    exact H.
  - unfold str. simpl. rewrite unsigned_value_pos. reflexivity.
Qed.

Lemma split_encode x y z : split_comma (encode x y z) = [str x; str y; str z].
Proof.
  unfold encode.
  rewrite !split_comma_app, split_comma_plain by apply str_chars. reflexivity.
Qed.

Lemma decode_encode x y z : decode (encode x y z) = Some (x, y, z).
Proof. unfold decode. rewrite split_encode, !py_int_str. reflexivity. Qed.

Lemma encode_inj x y z x' y' z' :
  encode x y z = encode x' y' z' -> x = x' /\ y = y' /\ z = z'.
Proof.
  intros H. pose proof (decode_encode x y z) as E.
  rewrite H, decode_encode in E. inversion E. auto.
Qed.
End CodecFacts.

Section FloodFill.
Variable blocks : list (string * Z).

Lemma wanted_neighbors_target (vis : gset (Z * Z)) c n :
  n ∈ filter (fun n => is_target blocks n ∧ n ∉ vis) (get_neighbors c.1 c.2) ->
  is_target blocks n ∧ (n ∉ vis) ∧ (n ∈ get_neighbors c.1 c.2).
Proof. rewrite list_elem_of_filter. tauto. Qed.

Lemma wanted_neighbors_length (vis : gset (Z * Z)) c :
  (length (filter (fun n => is_target blocks n ∧ n ∉ vis) (get_neighbors c.1 c.2)) <= 4)%nat.
Proof. etransitivity; [apply length_filter|]. reflexivity. Qed.

(** What one flood fill adds: the same fresh cells to both sets, each of
    them a queued cell or a target cell. *)
Lemma flood_fill_loop_frame fuel : forall q vis plat vis' plat',
  flood_fill_loop fuel blocks q vis plat = Some (vis', plat') ->
  exists new : gset (Z * Z),
    vis' = vis ∪ new /\ plat' = plat ∪ new /\ new ## vis /\
    forall c, c ∈ new -> c ∈ q \/ is_target blocks c.
Proof.
  induction fuel as [|fuel IH]; intros q vis plat vis' plat' H; [discriminate|].
  simpl in H. destruct q as [|c q].
  - inversion H; subst. exists ∅. set_solver.
  - destruct (decide (c ∈ vis)) as [Hin|Hnin].
    + apply IH in H as (new & -> & -> & Hd & Hq).
      exists new. repeat split; try done.
      intros x Hx. destruct (Hq x Hx); [left; set_solver | by right].
    + apply IH in H as (new & -> & -> & Hd & Hq).
      exists ({[c]} ∪ new). repeat split; [set_solver.. |].
      intros x Hx. apply elem_of_union in Hx as [Hx|Hx].
      { left. set_solver. }
      destruct (Hq x Hx) as [Hx'|Hx']; [|by right].
      apply elem_of_app in Hx' as [Hx'|Hx']; [left; set_solver|].
      right. by apply wanted_neighbors_target in Hx' as [? _].
Qed.

(** On exit every queued cell has been visited, and the platform is closed
    under target neighbours. *)
Lemma flood_fill_loop_closed fuel : forall q vis plat vis' plat',
  flood_fill_loop fuel blocks q vis plat = Some (vis', plat') ->
  (forall c n, c ∈ plat -> n ∈ get_neighbors c.1 c.2 -> is_target blocks n ->
               n ∈ vis \/ n ∈ q) ->
  (forall c, c ∈ q -> c ∈ vis') /\
  (forall c n, c ∈ plat' -> n ∈ get_neighbors c.1 c.2 -> is_target blocks n ->
               n ∈ vis').
Proof.
  induction fuel as [|fuel IH]; intros q vis plat vis' plat' H Hinv; [discriminate|].
  simpl in H. destruct q as [|c q].
  - inversion H; subst. split; [set_solver|].
    intros c n Hc Hn Ht. destruct (Hinv c n Hc Hn Ht); set_solver.
  - destruct (decide (c ∈ vis)) as [Hin|Hnin].
    + pose proof (flood_fill_loop_frame _ _ _ _ _ _ H) as (new & Hv & _).
      apply IH in H as [Hq Hcl].
      * split; [|exact Hcl]. intros x Hx. apply elem_of_cons in Hx as [->|Hx]; [|auto].
        set_solver.
      * intros c0 n Hc0 Hn Ht. destruct (Hinv c0 n Hc0 Hn Ht) as [?|Hx]; [by left|].
        apply elem_of_cons in Hx as [->|Hx]; [by left | by right].
    + pose proof (flood_fill_loop_frame _ _ _ _ _ _ H) as (new & Hv & _).
      apply IH in H as [Hq Hcl].
      * split; [|exact Hcl]. intros x Hx. apply elem_of_cons in Hx as [->|Hx].
        { set_solver. } apply Hq. set_solver.
      * intros c0 n Hc0 Hn Ht.
        destruct (decide (n ∈ {[c]} ∪ vis)) as [?|Hnv]; [by left|right].
        apply elem_of_app.
        apply elem_of_union in Hc0 as [Hc0|Hc0].
        { apply elem_of_singleton in Hc0 as ->. right.
          apply list_elem_of_filter. done. }
        destruct (Hinv c0 n Hc0 Hn Ht) as [?|Hx]; [set_solver|].
        apply elem_of_cons in Hx as [->|Hx]; [set_solver | by left].
Qed.

(** The loop ends within [5 * |cells still to visit| + |queue|] iterations. *)
Lemma flood_fill_loop_total (S : gset (Z * Z)) :
  (forall c, is_target blocks c -> c ∈ S) ->
  forall fuel q vis plat,
    (5 * size ((S ∪ list_to_set q) ∖ vis) + length q < fuel)%nat ->
    is_Some (flood_fill_loop fuel blocks q vis plat).
Proof.
  intros HS. induction fuel as [|fuel IH]; intros q vis plat Hf; [lia|].
  simpl. destruct q as [|c q]; [eauto|].
  destruct (decide (c ∈ vis)) as [Hin|Hnin].
  - apply IH. cbn [length] in Hf.
    assert ((S ∪ list_to_set q) ∖ vis ⊆ (S ∪ list_to_set (c :: q)) ∖ vis) as Hs
      by set_solver.
    apply subseteq_size in Hs. lia.
  - apply IH.
    set (nb := filter _ _).
    assert (length nb <= 4)%nat as Hl by apply wanted_neighbors_length.
    assert ((S ∪ list_to_set (q ++ nb)) ∖ ({[c]} ∪ vis)
              ⊂ (S ∪ list_to_set (c :: q)) ∖ vis) as Hs.
    { split.
      - intros x Hx. apply elem_of_difference in Hx as [Hx Hn].
        apply elem_of_difference. split.
        + apply elem_of_union in Hx as [Hx|Hx]; [by apply elem_of_union_l|].
          apply elem_of_list_to_set, elem_of_app in Hx as [Hx|Hx].
          * apply elem_of_union_r, elem_of_list_to_set. by right.
          * apply elem_of_union_l, HS.
            by apply wanted_neighbors_target in Hx as [Ht _].
        + intros Hv. apply Hn. by apply elem_of_union_r.
      - intros Hsub.
        assert (c ∈ (S ∪ list_to_set (c :: q)) ∖ vis) as Hc.
        { apply elem_of_difference. split; [|done].
          apply elem_of_union_r, elem_of_list_to_set. left. }
        apply Hsub, elem_of_difference in Hc as [_ Hc].
        apply Hc, elem_of_union_l. by apply elem_of_singleton. }
    apply subset_size in Hs. rewrite length_app. cbn [length] in Hf. lia.
Qed.

End FloodFill.

Lemma dict_get_elem_of k v (d : list (string * Z)) :
  Dict.get k d = Some v -> (k, v) ∈ d.
Proof.
  induction d as [|[k' v'] d IH]; simpl; [discriminate|].
  destruct (decide (k = k')) as [->|Hne].
  - intros [= ->]. left.
  - intros H. right. auto.
Qed.

Lemma dict_get_is_Some k v (d : list (string * Z)) :
  (k, v) ∈ d -> exists v', Dict.get k d = Some v' /\ (k, v') ∈ d.
Proof.
  induction d as [|[k' v'] d IH]; intros H; [by apply elem_of_nil in H|].
  simpl. destruct (decide (k = k')) as [->|Hne].
  - exists v'. split; [done | left].
  - apply elem_of_cons in H as [[= -> ->]|H]; [done|].
    destruct (IH H) as (w & ? & ?). exists w. split; [done | by right].
Qed.

Lemma is_target_cells_of blocks c : is_target blocks c -> c ∈ cells_of blocks.
Proof.
  intros H. apply dict_get_elem_of in H.
  apply elem_of_list_to_set, list_elem_of_omap.
  eexists. split; [exact H|].
  unfold key_cell. simpl. rewrite decode_encode. by destruct c.
Qed.

Lemma size_list_to_set_le (l : list (Z * Z)) :
  (size (list_to_set l : gset (Z * Z)) <= length l)%nat.
Proof.
  induction l as [|x l IH]; cbn [list_to_set length].
  - rewrite size_empty. lia.
  - rewrite size_union_alt, size_singleton.
    assert (list_to_set l ∖ {[x]} ⊆ (list_to_set l : gset (Z * Z))) as Hs by set_solver.
    apply subseteq_size in Hs. lia.
Qed.

Lemma length_omap_le {A B} (f : A -> option B) (l : list A) :
  (length (omap f l) <= length l)%nat.
Proof.
  induction l as [|x l IH]; [reflexivity|].
  change (omap f (x :: l)) with (match f x with Some y => y :: omap f l | None => omap f l end).
  destruct (f x); cbn [length]; lia.
Qed.

Lemma size_cells_of blocks : (size (cells_of blocks) <= length blocks)%nat.
Proof.
  unfold cells_of. etransitivity; [apply size_list_to_set_le|].
  apply length_omap_le.
Qed.

(** With [flood_fuel blocks] iterations every flood fill over [blocks] ends. *)
Lemma flood_fill_total blocks fuel vis start :
  (flood_fuel blocks <= fuel)%nat ->
  is_Some (flood_fill fuel blocks vis start).
Proof.
  intros Hf. unfold flood_fill.
  apply (flood_fill_loop_total blocks (cells_of blocks)).
  { apply is_target_cells_of. }
  assert ((cells_of blocks ∪ list_to_set [start]) ∖ vis
            ⊆ cells_of blocks ∪ {[start]}) as Hs by set_solver.
  apply subseteq_size in Hs.
  pose proof (size_union_alt (cells_of blocks) {[start]}) as Hu.
  assert ({[start]} ∖ cells_of blocks ⊆ ({[start]} : gset (Z * Z))) as Hs2 by set_solver.
  apply subseteq_size in Hs2. rewrite size_singleton in Hs2.
  pose proof (size_cells_of blocks).
  unfold flood_fuel in Hf. cbn [length]. lia.
Qed.

(** A flood fill from the empty platform returns exactly the fresh cells. *)
Lemma flood_fill_fresh blocks fuel vis start vis' plat :
  flood_fill fuel blocks vis start = Some (vis', plat) ->
  vis' = vis ∪ plat /\ plat ## vis /\
  forall c, c ∈ plat -> c = start \/ is_target blocks c.
Proof.
  intros H. apply flood_fill_loop_frame in H as (new & -> & -> & Hd & Hq).
  replace (∅ ∪ new) with new by set_solver. repeat split; [done|].
  intros c Hc. destruct (Hq c Hc) as [Hs|?]; [left | by right].
  by apply list_elem_of_singleton in Hs.
Qed.

Lemma pairwise_disjoint_snoc (ps : list (gset (Z * Z))) q :
  pairwise_disjoint ps -> (forall p, p ∈ ps -> p ## q) ->
  pairwise_disjoint (ps ++ [q]).
Proof.
  intros Hps Hq i j p1 p2 Hi Hj Hne.
  apply lookup_app_Some in Hi as [Hi|[Hi1 Hi2]];
    apply lookup_app_Some in Hj as [Hj|[Hj1 Hj2]].
  - eauto.
  - apply list_lookup_singleton_Some in Hj2 as [_ <-].
    apply Hq. eapply list_elem_of_lookup_2, Hi.
  - apply list_lookup_singleton_Some in Hi2 as [_ <-].
    symmetry. apply Hq. eapply list_elem_of_lookup_2, Hj.
  - apply list_lookup_singleton_Some in Hi2 as [Hi2 _].
    apply list_lookup_singleton_Some in Hj2 as [Hj2 _]. lia.
Qed.

Lemma scan_partition fuel blocks : forall todo vis ps res,
  scan fuel blocks todo vis ps = Done res ->
  (forall p, p ∈ ps -> p ⊆ vis) ->
  pairwise_disjoint ps ->
  Forall (fun p => (50 < size p)%nat) ps ->
  pairwise_disjoint res /\ Forall (fun p => (50 < size p)%nat) res.
Proof.
  induction todo as [|[coord b] todo IH]; intros vis ps res H Hsub Hdis Hsz; simpl in H.
  - by inversion H; subst.
  - destruct (decide (b ≠ 24)); [eauto|].
    destruct (decode coord) as [[[x y] z]|]; [|discriminate].
    destruct (decide ((x, z) ∈ vis)); [eauto|].
    destruct (flood_fill fuel blocks vis (x, z)) as [[vis' plat]|] eqn:Hff;
      [|discriminate].
    apply flood_fill_fresh in Hff as (-> & Hfresh & _).
    destruct (decide (50 < size plat)%nat) as [Hbig|Hsmall].
    + apply IH in H; [done| | |].
      * intros p Hp. apply elem_of_app in Hp as [Hp|Hp].
        -- specialize (Hsub p Hp). set_solver.
        -- apply list_elem_of_singleton in Hp as ->. set_solver.
      * apply pairwise_disjoint_snoc; [done|].
        intros p Hp. specialize (Hsub p Hp). set_solver.
      * apply Forall_app. split; [done|]. by constructor.
    + apply IH in H; [done| |done|done].
      intros p Hp. specialize (Hsub p Hp). set_solver.
Qed.

Lemma scan_no_timeout fuel blocks :
  (flood_fuel blocks <= fuel)%nat ->
  forall todo vis ps, scan fuel blocks todo vis ps ≠ Timeout.
Proof.
  intros Hf. induction todo as [|[coord b] todo IH]; intros vis ps; simpl; [done|].
  destruct (decide (b ≠ 24)); [eauto|].
  destruct (decode coord) as [[[x y] z]|]; [|done].
  destruct (decide ((x, z) ∈ vis)); [eauto|].
  destruct (flood_fill_total blocks fuel vis (x, z) Hf) as [[vis' plat] ->].
  apply IH.
Qed.

(** C5: with [flood_fuel blocks] iterations per flood fill the detector
    never ends on the loop budget; whenever it returns, the platforms are
    pairwise disjoint sets of [(x, z)] pairs and each has more than 50
    members. *)
Theorem platforms_partition blocks :
  (forall fuel, (flood_fuel blocks <= fuel)%nat ->
                find_platforms fuel blocks ≠ Timeout) /\
  (forall fuel ps, find_platforms fuel blocks = Done ps ->
     pairwise_disjoint ps /\ Forall (fun p => (50 < size p)%nat) ps).
Proof.
  split.
  - intros fuel Hf. by apply scan_no_timeout.
  - intros fuel ps H. eapply scan_partition; [exact H| | |].
    + intros p Hp. by apply elem_of_nil in Hp.
    + intros i j p q Hi. by rewrite lookup_nil in Hi.
    + constructor.
Qed.

Lemma elem_of_square_offsets ij :
  ij ∈ square_offsets <-> (0 <= ij.1 < 8) /\ (0 <= ij.2 < 8).
Proof.
  unfold square_offsets. rewrite list_elem_of_bind. split.
  - intros (i & Hj & Hi). apply list_elem_of_bind in Hj as (j & Hij & Hj).
    apply list_elem_of_singleton in Hij as ->.
    apply elem_of_seqZ in Hi, Hj. simpl. lia.
  - intros [Hi Hj]. exists ij.1. split; [|apply elem_of_seqZ; lia].
    apply list_elem_of_bind. exists ij.2. split; [|apply elem_of_seqZ; lia].
    destruct ij. apply list_elem_of_singleton. reflexivity.
Qed.

Lemma elem_of_square_cells x0 z0 c :
  c ∈ square_cells x0 z0 <-> (x0 <= c.1 < x0 + 8) /\ (z0 <= c.2 < z0 + 8).
Proof.
  unfold square_cells. rewrite list_elem_of_fmap. split.
  - intros (ij & -> & Hij). apply elem_of_square_offsets in Hij. simpl. lia.
  - intros [Hx Hz]. exists (c.1 - x0, c.2 - z0). split.
    + destruct c; simpl. f_equal; lia.
    + apply elem_of_square_offsets. simpl. lia.
Qed.

Lemma NoDup_square_cells x0 z0 : NoDup (square_cells x0 z0).
Proof.
  unfold square_cells. apply NoDup_fmap_2_strong.
  - intros [i j] [i' j'] _ _ [= Hi Hj]. f_equal; lia.
  - apply (bool_decide_unpack (NoDup square_offsets)). vm_compute. exact I.
Qed.

Lemma size_square x0 z0 :
  size (list_to_set (square_cells x0 z0) : gset (Z * Z)) = 64%nat.
Proof. rewrite size_list_to_set by apply NoDup_square_cells. reflexivity. Qed.

Section Square.
Variables (x0 z0 : Z) (blocks : list (string * Z)).
Hypothesis Hperm : Permutation blocks (square_grid x0 z0).

Lemma square_entry kv :
  kv ∈ blocks <-> exists c, c ∈ square_cells x0 z0 /\ kv = (encode c.1 0 c.2, 24).
Proof.
  rewrite Hperm. unfold square_grid. rewrite list_elem_of_fmap. naive_solver.
Qed.

Lemma square_target c : is_target blocks c <-> c ∈ square_cells x0 z0.
Proof.
  unfold is_target. split.
  - intros H. apply dict_get_elem_of, square_entry in H as (c' & Hc' & [= H]).
    apply encode_inj in H as (H1 & _ & H2).
    destruct c, c'; simpl in *; by subst.
  - intros Hc.
    assert ((encode c.1 0 c.2, 24) ∈ blocks) as Hin
      by (apply square_entry; eauto).
    apply dict_get_is_Some in Hin as (v & -> & Hv).
    apply square_entry in Hv as (_ & _ & [= _ ->]). reflexivity.
Qed.

(** A set that holds one cell of the square and is closed under the target
    neighbours of its members holds the whole square. *)
Lemma square_connected (P : gset (Z * Z)) a b :
  (a, b) ∈ square_cells x0 z0 -> (a, b) ∈ P ->
  (forall c n, c ∈ P -> n ∈ get_neighbors c.1 c.2 -> is_target blocks n -> n ∈ P) ->
  forall c, c ∈ square_cells x0 z0 -> c ∈ P.
Proof.
  intros Hab HP Hcl.
  apply elem_of_square_cells in Hab as [Ha Hb]; simpl in Ha, Hb.
  assert (forall i j, x0 <= i < x0 + 8 -> z0 <= j < z0 + 8 ->
                      (i, j) ∈ P -> (i + 1 < x0 + 8 -> (i + 1, j) ∈ P) /\
                                    (x0 <= i - 1 -> (i - 1, j) ∈ P) /\
                                    (j + 1 < z0 + 8 -> (i, j + 1) ∈ P) /\
                                    (z0 <= j - 1 -> (i, j - 1) ∈ P)) as Hstep.
  { intros i j Hi Hj Hij. repeat split; intros Hb';
      apply (Hcl (i, j)); try done;
      try (apply square_target, elem_of_square_cells; simpl; lia);
      unfold get_neighbors; simpl; set_solver. }
  assert (forall n : nat, forall i, x0 <= i < x0 + 8 -> Z.abs (i - a) = Z.of_nat n ->
                                    (i, b) ∈ P) as Hrow.
  { induction n as [|n IH]; intros i Hi Hn.
    - replace i with a by lia. done.
    - destruct (Z_lt_le_dec a i).
      + assert ((i - 1, b) ∈ P) as Hp by (apply IH; lia).
        apply Hstep in Hp as (Hp & _); [|lia..].
        replace (i - 1 + 1) with i in Hp by lia. apply Hp. lia.
      + assert ((i + 1, b) ∈ P) as Hp by (apply IH; lia).
        apply Hstep in Hp as (_ & Hp & _); [|lia..].
        replace (i + 1 - 1) with i in Hp by lia. apply Hp. lia. }
  assert (forall n : nat, forall i j, x0 <= i < x0 + 8 -> z0 <= j < z0 + 8 ->
                                      Z.abs (j - b) = Z.of_nat n -> (i, j) ∈ P) as Hcol.
  { induction n as [|n IH]; intros i j Hi Hj Hn.
    - replace j with b by lia. apply (Hrow (Z.to_nat (Z.abs (i - a)))); lia.
    - destruct (Z_lt_le_dec b j).
      + assert ((i, j - 1) ∈ P) as Hp by (apply IH; lia).
        apply Hstep in Hp as (_ & _ & Hp & _); [|lia..].
        replace (j - 1 + 1) with j in Hp by lia. apply Hp. lia.
      + assert ((i, j + 1) ∈ P) as Hp by (apply IH; lia).
        apply Hstep in Hp as (_ & _ & _ & Hp); [|lia..].
        replace (j + 1 - 1) with j in Hp by lia. apply Hp. lia. }
  intros [i j] Hc. apply elem_of_square_cells in Hc as [Hi Hj]; simpl in Hi, Hj.
  apply (Hcol (Z.to_nat (Z.abs (j - b)))); lia.
Qed.

(** The flood fill from a cell of the square returns the square. *)
Lemma flood_fill_square fuel start vis' plat :
  start ∈ square_cells x0 z0 ->
  flood_fill fuel blocks ∅ start = Some (vis', plat) ->
  vis' = list_to_set (square_cells x0 z0) /\ plat = list_to_set (square_cells x0 z0).
Proof.
  intros Hs H.
  pose proof (flood_fill_fresh _ _ _ _ _ _ H) as (Hv & _ & Hsound).
  apply flood_fill_loop_closed in H as [Hq Hcl]; [|set_solver].
  assert (vis' = plat) as -> by set_solver.
  split; [|]; apply set_eq; intros c; rewrite elem_of_list_to_set; split.
  1,3: intros Hc; destruct (Hsound c Hc) as [->|Ht]; [done | by apply square_target].
  all: destruct start as [a b]; apply (square_connected plat a b); try done;
    apply Hq; set_solver.
Qed.

(** Once the square is visited, the rest of the scan adds nothing. *)
Lemma scan_square_visited fuel ps : forall todo,
  (forall kv, kv ∈ todo -> kv ∈ blocks) ->
  scan fuel blocks todo (list_to_set (square_cells x0 z0)) ps = Done ps.
Proof.
  induction todo as [|[coord b] todo IH]; intros Hin; [reflexivity|]. cbn [scan].
  assert ((coord, b) ∈ blocks) as He by (apply Hin; left).
  apply square_entry in He as (c & Hc & [= -> ->]).
  destruct (decide (24 ≠ 24)); [done|].
  rewrite decode_encode.
  rewrite decide_True by (apply elem_of_list_to_set; by destruct c).
  apply IH. intros kv Hkv. apply Hin. by right.
Qed.

Lemma scan_square fuel todo :
  (flood_fuel blocks <= fuel)%nat ->
  todo ≠ [] -> (forall kv, kv ∈ todo -> kv ∈ blocks) ->
  scan fuel blocks todo ∅ [] = Done [list_to_set (square_cells x0 z0)].
Proof.
  intros Hf Hne Hin. destruct todo as [|[coord b] todo]; [done|]. cbn [scan].
  assert ((coord, b) ∈ blocks) as He by (apply Hin; left).
  apply square_entry in He as (c & Hc & [= -> ->]).
  destruct (decide (24 ≠ 24)); [done|].
  rewrite decode_encode.
  rewrite decide_False by set_solver.
  destruct (flood_fill_total blocks fuel ∅ (c.1, c.2) Hf) as [[vis' plat] Hff].
  rewrite Hff.
  apply flood_fill_square in Hff as [-> ->]; [|by destruct c].
  rewrite decide_True by (rewrite size_square; lia).
  apply scan_square_visited. intros kv Hkv. apply Hin. by right.
Qed.

Lemma find_platforms_square fuel :
  (flood_fuel blocks <= fuel)%nat ->
  find_platforms fuel blocks = Done [list_to_set (square_cells x0 z0)].
Proof.
  intros Hf. apply scan_square; [done| |done].
  intros ->. apply Permutation_length in Hperm. discriminate.
Qed.

End Square.

(** C6: a grid whose entries, in any order, are the 64 cells of an 8x8
    square of block 24 at [y = 0], with any corner, yields exactly one
    platform; it has 64 members, the cells of the square. *)
Theorem square_one_platform x0 z0 blocks fuel :
  Permutation blocks (square_grid x0 z0) ->
  (flood_fuel blocks <= fuel)%nat ->
  exists p, find_platforms fuel blocks = Done [p] /\ size p = 64%nat /\
            forall c, c ∈ p <-> c ∈ square_cells x0 z0.
Proof.
  intros Hp Hf. exists (list_to_set (square_cells x0 z0)).
  split; [by apply find_platforms_square|].
  split; [apply size_square|]. intros c. apply elem_of_list_to_set.
Qed.

Section DictFacts.
Implicit Types (d b g : list (string * Z)) (k : string) (v : Z).

Lemma dict_get_set k k' v d :
  Dict.get k' (Dict.set k v d) = if decide (k' = k) then Some v else Dict.get k' d.
Proof.
  induction d as [|[k0 v0] d IH]; simpl.
  - destruct (decide (k' = k)); reflexivity.
  - destruct (decide (k = k0)) as [->|Hne]; simpl.
    + destruct (decide (k' = k0)); reflexivity.
    + rewrite IH. destruct (decide (k' = k0)) as [->|]; [|reflexivity].
      by rewrite decide_False.
Qed.

Lemma dict_get_None k d : Dict.get k d = None <-> k ∉ d.*1.
Proof.
  induction d as [|[k0 v0] d IH]; simpl.
  - split; [intros _; apply not_elem_of_nil | done].
  - rewrite not_elem_of_cons. destruct (decide (k = k0)); [|tauto].
    split; [done | tauto].
Qed.

Lemma dict_get_NoDup k v d : NoDup d.*1 -> (k, v) ∈ d -> Dict.get k d = Some v.
Proof.
  induction d as [|[k0 v0] d IH]; simpl; intros Hnd Hin.
  - by apply elem_of_nil in Hin.
  - apply NoDup_cons in Hnd as [Hk0 Hnd].
    apply elem_of_cons in Hin as [[= -> ->]|Hin].
    + by rewrite decide_True.
    + rewrite decide_False; [auto|]. intros ->. apply Hk0.
      apply list_elem_of_fmap. by exists (k0, v).
Qed.

Lemma dict_set_fresh k v d : Dict.get k d = None -> Dict.set k v d = d ++ [(k, v)].
Proof.
  induction d as [|[k0 v0] d IH]; simpl; [done|].
  destruct (decide (k = k0)); [done|]. intros H. by rewrite IH.
Qed.

Lemma dict_set_keys k v d :
  (Dict.set k v d).*1
  = match Dict.get k d with Some _ => d.*1 | None => d.*1 ++ [k] end.
Proof.
  induction d as [|[k0 v0] d IH]; [done|]. cbn [Dict.set Dict.get].
  destruct (decide (k = k0)) as [->|]; [done|].
  rewrite !fmap_cons, IH. by destruct (Dict.get k d).
Qed.

Lemma dict_set_NoDup k v d : NoDup d.*1 -> NoDup (Dict.set k v d).*1.
Proof.
  intros Hnd. rewrite dict_set_keys. destruct (Dict.get k d) eqn:E; [done|].
  apply NoDup_app. split; [done|]. split; [|apply NoDup_singleton].
  intros x Hx Hk. apply list_elem_of_singleton in Hk as ->.
  by apply dict_get_None in E.
Qed.

Lemma dict_update_cons d kv g :
  Dict.update d (kv :: g) = Dict.update (Dict.set kv.1 kv.2 d) g.
Proof. reflexivity. Qed.

Lemma dict_update_NoDup d g : NoDup d.*1 -> NoDup (Dict.update d g).*1.
Proof.
  revert d. induction g as [|kv g IH]; intros d Hd; [done|].
  rewrite dict_update_cons. by apply IH, dict_set_NoDup.
Qed.

(** [d.update(g)]: the value of [g] where [g] has the key, else that of [d]. *)
Lemma dict_get_update k d g :
  NoDup g.*1 ->
  Dict.get k (Dict.update d g)
  = match Dict.get k g with Some v => Some v | None => Dict.get k d end.
Proof.
  revert d. induction g as [|[k0 v0] g IH]; intros d Hnd; [done|].
  apply NoDup_cons in Hnd as [Hk0 Hnd].
  rewrite dict_update_cons, IH by done. simpl.
  rewrite dict_get_set.
  destruct (decide (k = k0)) as [->|]; [|done].
  apply dict_get_None in Hk0. simpl in Hk0. by rewrite Hk0.
Qed.

Lemma to_map_lookup d k : Dict.to_map d !! k = Dict.get k d.
Proof.
  unfold Dict.to_map. induction d as [|[k0 v0] d IH]; simpl; [done|].
  destruct (decide (k = k0)) as [->|Hne].
  - apply lookup_insert_eq.
  - by rewrite lookup_insert_ne.
Qed.

End DictFacts.

Section Merge.
Import Main.
Implicit Types (d b g : list (string * Z)) (k : string) (v : Z).

Lemma merge_cons b kv g :
  merge b (kv :: g)
  = merge (match Dict.get kv.1 b with
           | None => Dict.set kv.1 kv.2 b
           | Some _ => b
           end) g.
Proof. reflexivity. Qed.

(** Insert-if-absent: the grid's own value wins, the generated one fills
    the gaps. *)
Lemma merge_get k b g :
  Dict.get k (merge b g)
  = match Dict.get k b with Some v => Some v | None => Dict.get k g end.
Proof.
  revert b. induction g as [|[k0 v0] g IH]; intros b.
  - simpl. by destruct (Dict.get k b).
  - rewrite merge_cons, IH. simpl.
    destruct (Dict.get k0 b) as [w|] eqn:E.
    + destruct (decide (k = k0)) as [->|]; [by rewrite E | done].
    + rewrite dict_get_set.
      destruct (decide (k = k0)) as [->|]; [by rewrite E | done].
Qed.

(** The merged grid is the old one followed by the new entries. *)
Lemma merge_appends g : forall b,
  exists added, merge b g = b ++ added /\
    forall k v, (k, v) ∈ added -> Dict.get k b = None /\ Dict.get k g = Some v.
Proof.
  induction g as [|[k0 v0] g IH]; intros b.
  - exists []. split; [by rewrite app_nil_r|]. intros k v H. by apply elem_of_nil in H.
  - rewrite merge_cons. simpl. destruct (Dict.get k0 b) as [w|] eqn:E.
    + destruct (IH b) as (added & -> & Hadd). exists added. split; [done|].
      intros k v Hin. destruct (Hadd k v Hin) as [Hb Hg]. split; [done|].
      rewrite decide_False; [done|]. intros ->. congruence.
    + destruct (IH (Dict.set k0 v0 b)) as (added & -> & Hadd).
      rewrite dict_set_fresh by done. exists ((k0, v0) :: added).
      split; [by rewrite <- app_assoc|].
      intros k v Hin. apply elem_of_cons in Hin as [[= -> ->]|Hin].
      * split; [done|]. by rewrite decide_True.
      * destruct (Hadd k v Hin) as [Hb Hg]. rewrite dict_get_set in Hb.
        destruct (decide (k = k0)) as [|Hne]; [done|]. split; [done|].
        done.
Qed.

Lemma merge_to_map b g :
  Dict.to_map (merge b g) = Dict.to_map b ∪ Dict.to_map g.
Proof.
  apply map_eq. intros k. rewrite lookup_union, !to_map_lookup, merge_get.
  destruct (Dict.get k b), (Dict.get k g); reflexivity.
Qed.

(** C3: the grid [main] saves is the input grid followed by new entries.
    Every key of the input keeps its value; each new entry sits at a key the
    input lacked and carries the generated block of that key; as finite
    maps, the output is the input united with the generated blocks, the
    input winning. With [flood_fuel blocks] iterations per flood fill the
    run never ends on the loop budget. *)
Theorem merge_keeps_grid fuel blocks s :
  ((flood_fuel blocks <= fuel)%nat -> run fuel blocks s ≠ Timeout) /\
  (forall blocks', run fuel blocks s = Done blocks' ->
   exists platforms all_cone_blocks added,
    find_platforms fuel blocks = Done platforms /\
    all_cone_blocks = (cone_loop platforms ([], s)).1 /\
    blocks' = blocks ++ added /\
    (forall k v, Dict.get k blocks = Some v -> Dict.get k blocks' = Some v) /\
    (forall k v, (k, v) ∈ added ->
       Dict.get k blocks = None /\ Dict.get k all_cone_blocks = Some v) /\
    (forall k, Dict.get k blocks = None ->
       Dict.get k blocks' = Dict.get k all_cone_blocks) /\
    Dict.to_map blocks' = Dict.to_map blocks ∪ Dict.to_map all_cone_blocks).
Proof.
  unfold run. split.
  - intros Hf. pose proof (scan_no_timeout fuel blocks Hf blocks ∅ []) as Hn.
    fold (find_platforms fuel blocks) in Hn.
    by destruct (find_platforms fuel blocks).
  - intros blocks'.
    destruct (find_platforms fuel blocks) as [platforms| |] eqn:E; intros [= <-].
    destruct (merge_appends (cone_loop platforms ([], s)).1 blocks)
      as (added & Happ & Hadd).
    exists platforms, (cone_loop platforms ([], s)).1, added.
    repeat split; try done.
    + intros k v Hk. by rewrite merge_get, Hk.
    + by apply (Hadd k v).
    + by apply (Hadd k v).
    + intros k Hk. by rewrite merge_get, Hk.
    + apply merge_to_map.
Qed.

End Merge.

Section RadiusOffset.
Import Generator.
Local Open Scope R_scope.

Lemma weight_bounds angle noise_angle : 1 / 2 <= weight angle noise_angle <= 1.
Proof.
  unfold weight.
  pose proof (Rabs_pos (sin (angle - noise_angle))) as H0.
  assert (Rabs (sin (angle - noise_angle)) <= 1) as H1.
  { apply Rabs_le. pose proof (SIN_bound (angle - noise_angle)). lra. }
  set (a := Rabs _) in *.
  assert (0 < / (1 + a)) as Hpos by (apply Rinv_0_lt_compat; lra).
  assert ((1 + a) * / (1 + a) = 1) as Hinv by (apply Rinv_r; lra).
  unfold Rdiv. rewrite Rmult_1_l. nra.
Qed.

(** The sums of [get_radius_offset] from any starting pair: the weights sum
    grows by at least 1/2 per noise point, and [total] stays between [lo]
    and [hi] times the weights when every offset lies in [[lo, hi]]. *)
Lemma radius_sums_step lo hi angle : forall (ps : list (R * R)) (t w : R),
  Forall (fun p => lo <= p.2 <= hi) ps ->
  lo * w <= t <= hi * w -> 0 <= w ->
  let r := fold_left
             (fun acc p => let w := weight angle p.1 in (acc.1 + p.2 * w, acc.2 + w))
             ps (t, w) in
  w + INR (length ps) / 2 <= r.2 /\ lo * r.2 <= r.1 <= hi * r.2.
Proof.
  induction ps as [|[a o] ps IH]; intros t w Hall Ht Hw.
  - simpl. lra.
  - apply Forall_cons in Hall as [Ho Hall]. simpl in Ho.
    pose proof (weight_bounds angle a) as Hb.
    cbn [fold_left]. simpl fst. simpl snd.
    specialize (IH (t + o * weight angle a) (w + weight angle a) Hall).
    destruct IH as [IH1 IH2]; [nra | lra |].
    split; [|exact IH2].
    change (length ((a, o) :: ps)) with (S (length ps)). rewrite S_INR.
    simpl in IH1. lra.
Qed.

Lemma uniform_list_length n a b s : length (uniform_list n a b s).1 = n.
Proof.
  revert s. induction n as [|n IH]; intros s; [reflexivity|].
  simpl. specialize (IH (fun k => s (S k))).
  destruct (uniform_list n a b _). simpl in *. by rewrite IH.
Qed.

End RadiusOffset.

(** ** Loops that thread a dict and the random state *)

Section Loops.
Context {A : Type}.
Implicit Types (step : A -> list (string * Z) * (nat -> R) -> list (string * Z) * (nat -> R)).

Lemma loop_invariant step (I : list (string * Z) * (nat -> R) -> Prop) :
  (forall a st, I st -> I (step a st)) ->
  forall l st, I st -> I (fold_left (fun st a => step a st) l st).
Proof.
  intros Hstep. induction l as [|a l IH]; intros st Hst; [done|].
  simpl. apply IH, Hstep, Hst.
Qed.

(** Every key of the result was there before or was written by [step]. *)
Lemma loop_keys_sound step (K : A -> string -> Prop) :
  (forall a st k, is_Some (Dict.get k (step a st).1) ->
                  is_Some (Dict.get k st.1) \/ K a k) ->
  forall l st k, is_Some (Dict.get k (fold_left (fun st a => step a st) l st).1) ->
                 is_Some (Dict.get k st.1) \/ exists a, a ∈ l /\ K a k.
Proof.
  intros Hstep. induction l as [|a l IH]; intros st k H; [by left|].
  simpl in H. apply IH in H as [H|(a' & Ha' & HK)].
  - apply Hstep in H as [H|H]; [by left|]. right. exists a. split; [left|done].
  - right. exists a'. split; [by right|done].
Qed.

(** Every key that was there, and every key [step] must write, is there. *)
Lemma loop_keys_complete step (K : A -> string -> Prop) :
  (forall a st k, is_Some (Dict.get k st.1) \/ K a k ->
                  is_Some (Dict.get k (step a st).1)) ->
  forall l st k, (is_Some (Dict.get k st.1) \/ exists a, a ∈ l /\ K a k) ->
                 is_Some (Dict.get k (fold_left (fun st a => step a st) l st).1).
Proof.
  intros Hstep. induction l as [|a l IH]; intros st k H.
  - destruct H as [H|(a & Ha & _)]; [done|]. by apply elem_of_nil in Ha.
  - simpl. apply IH. destruct H as [H|(a' & Ha' & HK)].
    + left. apply Hstep. by left.
    + apply elem_of_cons in Ha' as [->|Ha'].
      * left. apply Hstep. by right.
      * right. by exists a'.
Qed.

End Loops.

Lemma dict_set_is_Some k k' v (d : list (string * Z)) :
  is_Some (Dict.get k' (Dict.set k v d)) <-> is_Some (Dict.get k' d) \/ k' = k.
Proof.
  rewrite dict_get_set. destruct (decide (k' = k)); [|tauto].
  split; [by right | eauto].
Qed.

(** ** The random state *)

Section Draws.
Import Generator.
Local Open Scope R_scope.

(** A property of the sequence of draws that its tails keep, such as
    "every draw lies in [[lo, hi]]". *)
Variable P : (nat -> R) -> Prop.
Hypothesis P_tail : forall s, P s -> P (fun n => s (S n)).

Lemma random_keeps s : P s -> P (random s).2.
Proof. apply P_tail. Qed.

Lemma uniform_list_keeps n a b : forall s, P s -> P (uniform_list n a b s).2.
Proof.
  induction n as [|n IH]; intros s Hs; [done|].
  simpl. specialize (IH _ (P_tail s Hs)).
  by destruct (uniform_list n a b _).
Qed.

Lemma stone_or_cobble_keeps s : P s -> P (stone_or_cobble s).2.
Proof. apply P_tail. Qed.

Lemma hanging_block_keeps s : P s -> P (hanging_block s).2.
Proof.
  intros Hs. unfold hanging_block, random.
  destruct (Rlt_dec (s O) 0.6); [by apply P_tail|].
  destruct (Rlt_dec _ 0.3); exact (P_tail _ (P_tail s Hs)).
Qed.

Lemma cap_cell_keeps radius angles offsets cx cz x z st :
  P st.2 -> P (cap_cell radius angles offsets cx cz x z st).2.
Proof.
  destruct st as [d s]. simpl. intros Hs. unfold cap_cell.
  destruct (Rle_dec _ _); [|done].
  destruct (Rle_dec _ _).
  - destruct (Rlt_dec _ _); [|done].
    pose proof (stone_or_cobble_keeps s Hs). by destruct (stone_or_cobble s).
  - unfold random. destruct (Rlt_dec _ _); [by apply P_tail|].
    pose proof (stone_or_cobble_keeps _ (P_tail s Hs)) as H.
    by destruct (stone_or_cobble _).
Qed.

Lemma hanging_cell_keeps cur cx cz y x z st :
  P st.2 -> P (hanging_cell cur cx cz y x z st).2.
Proof.
  destruct st as [d s]. simpl. intros Hs. unfold hanging_cell.
  destruct (Rle_dec _ _); [|done].
  destruct (Rlt_dec _ _).
  - unfold random. destruct (Rlt_dec _ _); [by apply P_tail|].
    pose proof (hanging_block_keeps _ (P_tail s Hs)) as H.
    by destruct (hanging_block _).
  - pose proof (hanging_block_keeps s Hs). by destruct (hanging_block s).
Qed.

End Draws.

Section CapLayer.
Import Generator.
Local Open Scope R_scope.

Lemma cap_cell_keys radius angles offsets cx cz x z st k :
  is_Some (Dict.get k (cap_cell radius angles offsets cx cz x z st).1) <->
  is_Some (Dict.get k st.1) \/
  (cap_included radius angles offsets x z /\ k = encode (x + cx) 0 (z + cz)).
Proof.
  destruct st as [d s]. unfold cap_cell, cap_included. simpl.
  destruct (Rle_dec _ _) as [Hin|Hout]; [|simpl; tauto].
  match goal with
  | |- context [let '(_, _) := ?X in _] => destruct X as [b s']
  end.
  simpl. rewrite dict_set_is_Some. tauto.
Qed.

Lemma cap_cell_NoDup radius angles offsets cx cz x z st :
  NoDup st.1.*1 -> NoDup (cap_cell radius angles offsets cx cz x z st).1.*1.
Proof.
  destruct st as [d s]. unfold cap_cell. simpl. intros Hd.
  destruct (Rle_dec _ _) as [Hin|Hout]; [|done].
  match goal with
  | |- context [let '(_, _) := ?X in _] => destruct X as [b s']
  end.
  simpl. by apply dict_set_NoDup.
Qed.

Lemma elem_of_range a b i : i ∈ range a b <-> (a <= i < b)%Z.
Proof. unfold range. rewrite elem_of_seqZ. lia. Qed.

(** The keys of the cap layer: the offsets of the bounding square that pass
    the distance test. *)
Lemma cap_layer_keys cx cz radius s k :
  let '(angles, s1) := uniform_list 8 0 (2 * PI) s in
  let '(offsets, s2) := uniform_list 8 0.8 1.2 s1 in
  is_Some (Dict.get k (create_organic_platform_layer cx cz radius s).1) <->
  exists x z, (- (radius + 2) <= x <= radius + 2)%Z /\
              (- (radius + 2) <= z <= radius + 2)%Z /\
              cap_included radius angles offsets x z /\
              k = encode (x + cx) 0 (z + cz).
Proof.
  unfold create_organic_platform_layer.
  destruct (uniform_list 8 0 (2 * PI) s) as [angles s1].
  destruct (uniform_list 8 0.8 1.2 s1) as [offsets s2].
  set (rg := range _ _).
  assert (forall i, i ∈ rg <-> (- (radius + 2) <= i <= radius + 2)%Z) as Hrg
    by (intros i; unfold rg; rewrite elem_of_range; lia).
  set (inner := fun x st =>
    fold_left (fun st z => cap_cell radius angles offsets cx cz x z st) rg st).
  set (K := fun x k => exists z, z ∈ rg /\
             (cap_included radius angles offsets x z /\ k = encode (x + cx) 0 (z + cz))).
  assert (forall x st k, is_Some (Dict.get k (inner x st).1) <->
                         is_Some (Dict.get k st.1) \/ K x k) as Hinner.
  { intros x st k'. unfold inner, K. split.
    - apply (loop_keys_sound (fun z st => cap_cell radius angles offsets cx cz x z st)
               (fun z k => cap_included radius angles offsets x z /\ k = encode (x + cx) 0 (z + cz))).
      intros z st' k''. apply cap_cell_keys.
    - apply (loop_keys_complete (fun z st => cap_cell radius angles offsets cx cz x z st)
               (fun z k => cap_included radius angles offsets x z /\ k = encode (x + cx) 0 (z + cz))).
      intros z st' k''. apply cap_cell_keys. }
  change (fold_left _ rg ([], s2)) with (fold_left (fun st x => inner x st) rg ([], s2)).
  split.
  - intros H. apply (loop_keys_sound inner K) in H as [H|(x & Hx & z & Hz & Hi & Hk)].
    + simpl in H. by destruct H.
    + exists x, z. rewrite <- !Hrg. done.
    + intros a st k'. apply Hinner.
  - intros (x & z & Hx & Hz & Hi & Hk).
    apply (loop_keys_complete inner K).
    + intros a st k'. apply Hinner.
    + right. exists x. split; [by apply Hrg|]. exists z. split; [by apply Hrg|done].
Qed.

Lemma create_organic_platform_layer_NoDup cx cz radius s :
  NoDup (create_organic_platform_layer cx cz radius s).1.*1.
Proof.
  unfold create_organic_platform_layer.
  destruct (uniform_list 8 0 (2 * PI) s) as [angles s1].
  destruct (uniform_list 8 0.8 1.2 s1) as [offsets s2].
  apply (loop_invariant
           (fun x st => fold_left (fun st z => cap_cell radius angles offsets cx cz x z st) _ st)
           (fun st => NoDup st.1.*1)); [|constructor].
  intros x st Hst.
  apply (loop_invariant (fun z st => cap_cell radius angles offsets cx cz x z st)
           (fun st => NoDup st.1.*1)); [|done].
  intros z st'. apply cap_cell_NoDup.
Qed.

End CapLayer.

Section Multiplier.
Import Generator.
Local Open Scope R_scope.

Lemma draws_between_tail lo hi s :
  draws_between lo hi s -> draws_between lo hi (fun n => s (S n)).
Proof. intros H n. apply H. Qed.

Lemma unit_draws_between s : unit_draws s -> draws_between 0 1 s.
Proof. intros H n. specialize (H n). lra. Qed.

Lemma unit_draws_tail s : unit_draws s -> unit_draws (fun n => s (S n)).
Proof. intros H n. apply H. Qed.

Lemma uniform_list_between lo hi a b n : forall s,
  a <= b -> draws_between lo hi s ->
  Forall (fun v => a + (b - a) * lo <= v <= a + (b - a) * hi)
         (uniform_list n a b s).1.
Proof.
  induction n as [|n IH]; intros s Hab Hs; [constructor|].
  simpl. specialize (IH _ Hab (draws_between_tail _ _ _ Hs)).
  destruct (uniform_list n a b _) as [vs s']. simpl in *.
  constructor; [|done]. specialize (Hs O). nra.
Qed.

Lemma radius_sums_weights angle : forall (ps : list (R * R)) (t w : R),
  w + INR (length ps) / 2
  <= (fold_left
        (fun acc p => let w := weight angle p.1 in (acc.1 + p.2 * w, acc.2 + w))
        ps (t, w)).2.
Proof.
  induction ps as [|[a o] ps IH]; intros t w.
  - simpl. lra.
  - cbn [fold_left]. simpl fst. simpl snd.
    specialize (IH (t + o * weight angle a) (w + weight angle a)).
    pose proof (weight_bounds angle a) as Hb.
    change (length ((a, o) :: ps)) with (S (length ps)). rewrite S_INR. lra.
Qed.

Lemma combine_offsets_between lo hi (angles offsets : list R) :
  Forall (fun v => lo <= v <= hi) offsets ->
  Forall (fun p : R * R => lo <= p.2 <= hi) (combine angles offsets).
Proof.
  intros H. revert angles. induction H as [|o offsets Ho _ IH]; intros [|a angles];
    simpl; constructor; [done | apply IH].
Qed.

(** With eight noise points the weights sum is at least 4: the fallback
    value of [get_radius_offset] is never used. *)
Lemma eight_weights_sum angles offsets angle :
  length angles = 8%nat -> length offsets = 8%nat ->
  4 <= (radius_sums angles offsets angle).2 /\
  get_radius_offset angles offsets angle
  = (radius_sums angles offsets angle).1 / (radius_sums angles offsets angle).2.
Proof.
  intros Ha Ho.
  pose proof (radius_sums_weights angle (combine angles offsets) 0 0) as Hw.
  rewrite length_combine, Ha, Ho in Hw. simpl in Hw.
  unfold get_radius_offset. fold (radius_sums angles offsets angle) in Hw.
  destruct (radius_sums angles offsets angle) as [t w]. simpl in *.
  split; [lra|]. destruct (Rlt_dec 0 w); [done | lra].
Qed.

(** The multiplier is a weighted mean of the offsets. *)
Lemma get_radius_offset_between lo hi angles offsets angle :
  length angles = 8%nat -> length offsets = 8%nat ->
  Forall (fun v => lo <= v <= hi) offsets ->
  lo <= get_radius_offset angles offsets angle <= hi.
Proof.
  intros Ha Ho Hall.
  destruct (eight_weights_sum angles offsets angle Ha Ho) as [Hw ->].
  pose proof (radius_sums_step lo hi angle (combine angles offsets) 0 0
                (combine_offsets_between lo hi angles offsets Hall)) as Hs.
  simpl in Hs. fold (radius_sums angles offsets angle) in Hs.
  destruct (radius_sums angles offsets angle) as [t w]. simpl in *.
  destruct (Hs ltac:(lra) ltac:(lra)) as [_ Hs'].
  unfold Rdiv.
  split; apply Rmult_le_reg_r with w; try lra;
    rewrite Rmult_assoc, Rinv_l by lra; lra.
Qed.

Lemma anchors_between lo hi s :
  draws_between lo hi s ->
  let '(angles, s1) := uniform_list 8 0 (2 * PI) s in
  let '(offsets, s2) := uniform_list 8 0.8 1.2 s1 in
  forall angle,
    0.8 + 0.4 * lo <= get_radius_offset angles offsets angle <= 0.8 + 0.4 * hi.
Proof.
  intros Hs.
  pose proof (uniform_list_length 8 0 (2 * PI) s) as La.
  pose proof (uniform_list_keeps (draws_between lo hi) (draws_between_tail lo hi)
                8 0 (2 * PI) s Hs) as Hs1.
  destruct (uniform_list 8 0 (2 * PI) s) as [angles s1]. simpl in La, Hs1.
  pose proof (uniform_list_length 8 0.8 1.2 s1) as Lo.
  pose proof (uniform_list_between lo hi 0.8 1.2 8 s1 ltac:(lra) Hs1) as Hb.
  destruct (uniform_list 8 0.8 1.2 s1) as [offsets s2]. simpl in Lo, Hb.
  intros angle.
  apply get_radius_offset_between; [done..|].
  eapply Forall_impl; [exact Hb|]. simpl. intros v Hv. lra.
Qed.

Lemma sqrt_le_bound a b : 0 <= b -> a <= b * b -> sqrt a <= b.
Proof.
  intros Hb Hab. rewrite <- (sqrt_square b Hb). by apply sqrt_le_1_alt.
Qed.

Lemma sqrt_gt_bound a b : 0 <= b -> b * b < a -> b < sqrt a.
Proof.
  intros Hb Hab. rewrite <- (sqrt_square b Hb) at 1. by apply sqrt_lt_1_alt; nra.
Qed.

(** With every draw equal to 0.99 the cell at offset (16, 6), farther than
    17 from the center, is part of the cap layer. *)
Lemma far_cell_emitted :
  is_Some (Dict.get (encode 16 0 6)
             (create_organic_platform_layer 0 0 15 (fun _ => 0.99)).1).
Proof.
  set (s := fun _ : nat => 0.99).
  pose proof (cap_layer_keys 0 0 15 s (encode 16 0 6)) as Hk.
  assert (draws_between 0.99 0.99 s) as Hs by (intros n; unfold s; lra).
  pose proof (anchors_between 0.99 0.99 s Hs) as Hb.
  destruct (uniform_list 8 0 (2 * PI) s) as [angles s1].
  destruct (uniform_list 8 0.8 1.2 s1) as [offsets s2].
  apply Hk. exists 16%Z, 6%Z. repeat split; try lia; [].
  unfold cap_included. specialize (Hb (atan2 6 16)).
  apply sqrt_le_bound.
  - nra.
  - change (IZR (16 * 16 + 6 * 6)) with 292.
    set (m := get_radius_offset _ _ _) in *. nra.
Qed.

End Multiplier.

Section Hanging.
Import Generator.
Local Open Scope R_scope.

Lemma hanging_cell_cases cur cx cz y x z d s :
  hanging_cell cur cx cz y x z (d, s) = (d, s) \/
  hanging_cell cur cx cz y x z (d, s) = (d, (random s).2) \/
  exists s1, (s1 = s \/ s1 = (random s).2) /\
    hanging_cell cur cx cz y x z (d, s)
    = (Dict.set (encode (x + cx) (- y) (z + cz)) (hanging_block s1).1 d,
       (hanging_block s1).2).
Proof.
  unfold hanging_cell.
  destruct (Rle_dec _ _); [|by left].
  destruct (Rlt_dec _ _).
  - cbn [random]. destruct (Rlt_dec _ _); [right; left; reflexivity|].
    right. right. exists (fun n => s (S n)). split; [by right|].
    by destruct (hanging_block _).
  - right. right. exists s. split; [by left|]. by destruct (hanging_block s).
Qed.

Lemma hanging_cell_keys cur cx cz y x z st k :
  is_Some (Dict.get k (hanging_cell cur cx cz y x z st).1) ->
  is_Some (Dict.get k st.1) \/ k = encode (x + cx) (- y) (z + cz).
Proof.
  destruct st as [d s].
  destruct (hanging_cell_cases cur cx cz y x z d s) as [->|[->|(s1 & _ & ->)]];
    simpl; [by left..|].
  by rewrite dict_set_is_Some.
Qed.

Lemma hanging_cell_grows cur cx cz y x z st k :
  is_Some (Dict.get k st.1) ->
  is_Some (Dict.get k (hanging_cell cur cx cz y x z st).1).
Proof.
  destruct st as [d s].
  destruct (hanging_cell_cases cur cx cz y x z d s) as [->|[->|(s1 & _ & ->)]];
    simpl; [done..|].
  rewrite dict_set_is_Some. by left.
Qed.

Lemma hanging_cell_NoDup cur cx cz y x z st :
  NoDup st.1.*1 -> NoDup (hanging_cell cur cx cz y x z st).1.*1.
Proof.
  destruct st as [d s].
  destruct (hanging_cell_cases cur cx cz y x z d s) as [->|[->|(s1 & _ & ->)]];
    simpl; [done..|].
  apply dict_set_NoDup.
Qed.

(** An invariant of the dict and the random state that every cell of a
    hanging layer keeps is kept by all the hanging layers. *)
Lemma hanging_layers_invariant (I : list (string * Z) * (nat -> R) -> Prop)
    max_radius depth cx cz :
  (forall cur y x z st, I st -> I (hanging_cell cur cx cz y x z st)) ->
  forall st, I st -> I (hanging_layers max_radius depth cx cz st).
Proof.
  intros Hcell. unfold hanging_layers.
  apply (loop_invariant (fun y st => hanging_layer max_radius depth cx cz y st) I).
  intros y st Hst. unfold hanging_layer.
  apply (loop_invariant (fun x st => fold_left _ _ st) I); [|done].
  intros x st' Hst'.
  apply (loop_invariant
           (fun z st => hanging_cell (current_radius max_radius depth y) cx cz y x z st) I);
    [|done].
  intros z st''. apply Hcell.
Qed.

Lemma hanging_layers_grows max_radius depth cx cz st k :
  is_Some (Dict.get k st.1) ->
  is_Some (Dict.get k (hanging_layers max_radius depth cx cz st).1).
Proof.
  apply (hanging_layers_invariant (fun st => is_Some (Dict.get k st.1))).
  intros cur y x z st'. apply hanging_cell_grows.
Qed.

(** The keys the hanging layers add lie on the layers [-1 ... -(depth-1)]. *)
Lemma hanging_layers_keys max_radius depth cx cz st k :
  is_Some (Dict.get k (hanging_layers max_radius depth cx cz st).1) ->
  is_Some (Dict.get k st.1) \/
  exists x y z, (1 <= y < depth)%Z /\ k = encode x (- y) z.
Proof.
  unfold hanging_layers. intros H.
  apply (loop_keys_sound
           (fun y st => hanging_layer max_radius depth cx cz y st)
           (fun y k => exists x z, k = encode x (- y) z)) in H.
  - destruct H as [H|(y & Hy & x & z & ->)]; [by left|right].
    apply elem_of_range in Hy. by exists x, y, z.
  - clear. intros y st k H. unfold hanging_layer in H.
    apply (loop_keys_sound (fun x st => fold_left _ _ st)
             (fun x k => exists z, k = encode (x + cx) (- y) (z + cz))) in H.
    + destruct H as [H|(x & _ & z & ->)]; [by left|right]. eauto.
    + clear. intros x st k H.
      apply (loop_keys_sound
               (fun z st => hanging_cell (current_radius max_radius depth y) cx cz y x z st)
               (fun z k => k = encode (x + cx) (- y) (z + cz))) in H.
      * destruct H as [H|(z & _ & ->)]; [by left|right]. eauto.
      * intros z st' k'. apply hanging_cell_keys.
Qed.

Lemma generate_hanging_cone_NoDup cx cz start_y depth s :
  NoDup (generate_hanging_cone cx cz start_y depth s).1.*1.
Proof.
  unfold generate_hanging_cone.
  destruct (create_organic_platform_layer cx cz 15 s) as [pb s1].
  apply (hanging_layers_invariant (fun st => NoDup st.1.*1)).
  - intros cur y x z st. apply hanging_cell_NoDup.
  - simpl. apply dict_update_NoDup. constructor.
Qed.

(** The cone holds the cap layer, and besides it only hanging keys. *)
Lemma generate_hanging_cone_keys cx cz start_y depth s k :
  (is_Some (Dict.get k (create_organic_platform_layer cx cz 15 s).1) ->
   is_Some (Dict.get k (generate_hanging_cone cx cz start_y depth s).1)) /\
  (is_Some (Dict.get k (generate_hanging_cone cx cz start_y depth s).1) ->
   is_Some (Dict.get k (create_organic_platform_layer cx cz 15 s).1) \/
   exists x y z, (1 <= y < depth)%Z /\ k = encode x (- y) z).
Proof.
  pose proof (create_organic_platform_layer_NoDup cx cz 15 s) as Hnd.
  unfold generate_hanging_cone.
  destruct (create_organic_platform_layer cx cz 15 s) as [pb s1]. simpl in *.
  assert (Dict.get k (Dict.update [] pb) = Dict.get k pb) as Hu.
  { rewrite dict_get_update by done. by destruct (Dict.get k pb). }
  split.
  - intros H. apply hanging_layers_grows. simpl. by rewrite Hu.
  - intros H. apply hanging_layers_keys in H as [H|H]; [left|by right].
    simpl in H. by rewrite Hu in H.
Qed.

Lemma generate_hanging_cone_keeps (P : (nat -> R) -> Prop) cx cz start_y depth s :
  (forall s, P s -> P (fun n => s (S n))) ->
  P s -> P (generate_hanging_cone cx cz start_y depth s).2.
Proof.
  intros Htail Hs. unfold generate_hanging_cone.
  assert (P (create_organic_platform_layer cx cz 15 s).2) as H1.
  { unfold create_organic_platform_layer.
    pose proof (uniform_list_keeps P Htail 8 0 (2 * PI) s Hs) as Ha.
    destruct (uniform_list 8 0 (2 * PI) s) as [angles s1].
    pose proof (uniform_list_keeps P Htail 8 0.8 1.2 s1 Ha) as Ho.
    destruct (uniform_list 8 0.8 1.2 s1) as [offsets s2].
    apply (loop_invariant (fun x st => fold_left _ _ st) (fun st => P st.2));
      [|done].
    intros x st Hst.
    apply (loop_invariant (fun z st => cap_cell 15 angles offsets cx cz x z st)
             (fun st => P st.2)); [|done].
    intros z st'. by apply cap_cell_keeps. }
  destruct (create_organic_platform_layer cx cz 15 s) as [pb s1].
  apply (hanging_layers_invariant (fun st => P st.2)); [|done].
  intros cur y x z st. by apply hanging_cell_keeps.
Qed.

(** The taper. *)
Lemma Rpower_one a : Rpower 1 a = 1.
Proof. unfold Rpower. by rewrite ln_1, Rmult_0_r, exp_0. Qed.

Lemma current_radius_decreasing depth y1 y2 :
  (0 < depth)%Z -> (1 <= y1 <= y2)%Z ->
  current_radius 15 depth y2 <= current_radius 15 depth y1.
Proof.
  intros Hd Hy. unfold current_radius.
  assert (0 < IZR depth) as Hd' by (by apply IZR_lt).
  assert (0 < IZR y1) as Hy1 by (apply IZR_lt; lia).
  assert (IZR y1 <= IZR y2) as Hy2 by (apply IZR_le; lia).
  assert (0 < / IZR depth) as Hi by (by apply Rinv_0_lt_compat).
  assert (Rpower (IZR y1 / IZR depth) 0.7 <= Rpower (IZR y2 / IZR depth) 0.7).
  { apply Rle_Rpower_l; [lra|]. unfold Rdiv. split; [nra|].
    by apply Rmult_le_compat_r; [lra|]. }
  lra.
Qed.

Lemma current_radius_bottom depth :
  (0 < depth)%Z -> current_radius 15 depth depth = 0.
Proof.
  intros Hd. unfold current_radius.
  assert (0 < IZR depth) as Hd' by (by apply IZR_lt).
  unfold Rdiv. rewrite Rinv_r by lra. rewrite Rpower_one. lra.
Qed.

End Hanging.

(** C4: for all integers [x], [y], [z], zero and negatives included,
    decoding the key [f"{x},{y},{z}"] gives back [(x, y, z)], and encoding
    the decoded triple gives back the key. *)
Theorem codec_round_trip x y z :
  decode (encode x y z) = Some (x, y, z) /\
  reencode (encode x y z) = Some (encode x y z).
Proof.
  unfold reencode. rewrite decode_encode. done.
Qed.

(** Keys from outside need not be in the printed form: [int] accepts a
    sign, blanks and underscores. *)
Example reencode_canonical : reencode "+1, 0,0_0" = Some "1,0,0"%string.
Proof. reflexivity. Qed.

(** C1, on the grid [raised_seed_grid]: the block at (0, 5, 0) seeds a
    flood fill at (0, 0); the detector returns one platform of 51 cells that
    holds (0, 0), although the grid has no entry at the key "0,0,0". *)
Theorem raised_seed_joins_platform :
  exists p,
    find_platforms (flood_fuel raised_seed_grid) raised_seed_grid = Done [p] /\
    (0, 0) ∈ p /\ size p = 51%nat /\
    Dict.get (encode 0 0 0) raised_seed_grid = None /\
    ~ is_target raised_seed_grid (0, 0).
Proof.
  exists (list_to_set ((0, 0) :: ((fun i => (i, 0)) <$> seqZ 1 50))).
  split; [(vm_compute; reflexivity)|].
  split; [set_solver|].
  split; [vm_compute; reflexivity|].
  split; [vm_compute; reflexivity|].
  unfold is_target. vm_compute. discriminate.
Qed.

Lemma two_squares_platforms :
  find_platforms (flood_fuel two_squares_grid) two_squares_grid
  = Done [list_to_set (square_cells 0 0); list_to_set (square_cells 20 0)].
Proof. (vm_compute; reflexivity). Qed.

Lemma platforms_partition_witness :
  (flood_fuel two_squares_grid <= 1000)%nat /\
  find_platforms 1000 two_squares_grid ≠ Timeout /\
  pairwise_disjoint [list_to_set (square_cells 0 0); list_to_set (square_cells 20 0)] /\
  Forall (fun p : gset (Z * Z) => (50 < size p)%nat)
         [list_to_set (square_cells 0 0); list_to_set (square_cells 20 0)].
Proof.
  assert (flood_fuel two_squares_grid <= 1000)%nat as Hf by ((vm_compute; lia)).
  split; [exact Hf|].
  split; [exact (proj1 (platforms_partition two_squares_grid) 1000%nat Hf)|].
  exact (proj2 (platforms_partition two_squares_grid) _ _ two_squares_platforms).
Defined.

Lemma square_one_platform_witness :
  exists p, find_platforms 400 (rev (square_grid (-3) 5)) = Done [p] /\
            size p = 64%nat /\
            forall c, c ∈ p <-> c ∈ square_cells (-3) 5.
Proof.
  apply (square_one_platform (-3) 5 (rev (square_grid (-3) 5)) 400).
  - symmetry. apply Permutation_rev.
  - (vm_compute; lia).
Defined.

Section GeneratorClaims.
Import Generator Main.
Local Open Scope R_scope.

(** C9: every weight [1 / (1 + |sin(angle - noise_angle)|)] is at least 1/2;
    for the eight noise points the cap layer draws, whatever the draws and
    the angle, the sum of the weights is positive and [get_radius_offset]
    returns [total / weights], never the fallback 1. *)
Theorem weight_sum_positive :
  (forall angle noise_angle, 1 / 2 <= weight angle noise_angle) /\
  (forall s angle,
     let '(angles, s1) := uniform_list 8 0 (2 * PI) s in
     let '(offsets, s2) := uniform_list 8 0.8 1.2 s1 in
     let '(total, weights) := radius_sums angles offsets angle in
     0 < weights /\ get_radius_offset angles offsets angle = total / weights).
Proof.
  split; [intros a b; apply weight_bounds|].
  intros s angle.
  pose proof (uniform_list_length 8 0 (2 * PI) s) as La.
  destruct (uniform_list 8 0 (2 * PI) s) as [angles s1]. simpl in La.
  pose proof (uniform_list_length 8 0.8 1.2 s1) as Lo.
  destruct (uniform_list 8 0.8 1.2 s1) as [offsets s2]. simpl in Lo.
  destruct (eight_weights_sum angles offsets angle La Lo) as [Hw He].
  destruct (radius_sums angles offsets angle) as [total weights]. simpl in *.
  split; [lra | done].
Qed.

(** C2, amended: with draws in [[0, 1)], every key of the cap layer names a
    cell of the plane [y = 0] whose offsets from the center are at most
    R + 2 = 17 along each axis and whose Euclidean distance from the center
    is at most 1.2 * R = 18. *)
Theorem cap_layer_reach cx cz s k :
  unit_draws s ->
  is_Some (Dict.get k (create_organic_platform_layer cx cz 15 s).1) ->
  exists x z, decode k = Some (x, 0%Z, z) /\
              (Z.abs (x - cx) <= 17)%Z /\ (Z.abs (z - cz) <= 17)%Z /\
              center_distance cx cz x z <= 18.
Proof.
  intros Hs.
  pose proof (cap_layer_keys cx cz 15 s k) as Hkeys.
  pose proof (anchors_between 0 1 s (unit_draws_between s Hs)) as Hb.
  destruct (uniform_list 8 0 (2 * PI) s) as [angles s1].
  destruct (uniform_list 8 0.8 1.2 s1) as [offsets s2].
  intros Hk. apply Hkeys in Hk as (x & z & Hx & Hz & Hin & ->).
  exists (x + cx)%Z, (z + cz)%Z. rewrite decode_encode.
  split; [done|]. split; [lia|]. split; [lia|].
  unfold center_distance, cap_included in *.
  replace (x + cx - cx)%Z with x by lia. replace (z + cz - cz)%Z with z by lia.
  specialize (Hb (atan2 (IZR z) (IZR x))).
  set (m := get_radius_offset _ _ _) in *. lra.
Qed.

Lemma cap_layer_reach_witness :
  exists x z, decode (encode 16 0 6) = Some (x, 0%Z, z) /\
              (Z.abs (x - 0) <= 17)%Z /\ (Z.abs (z - 0) <= 17)%Z /\
              center_distance 0 0 x z <= 18.
Proof.
  apply (cap_layer_reach 0 0 (fun _ => 0.99) (encode 16 0 6)).
  - intros n. lra.
  - exact far_cell_emitted.
Defined.

(** C2, as stated, fails: with every draw equal to 0.99 the cap layer
    around (0, 0) holds the cell (16, 6), at distance sqrt 292 > 17 from the
    center, so Euclidean distance R + 2 does not bound the cap layer. *)
Lemma cap_layer_beyond_17 :
  unit_draws (fun _ => 0.99) /\
  is_Some (Dict.get (encode 16 0 6)
             (create_organic_platform_layer 0 0 15 (fun _ => 0.99)).1) /\
  decode (encode 16 0 6) = Some (16, 0, 6)%Z /\
  17 < center_distance 0 0 16 6 /\
  ~ (forall cx cz s k,
       unit_draws s ->
       is_Some (Dict.get k (create_organic_platform_layer cx cz 15 s).1) ->
       exists x y z, decode k = Some (x, y, z) /\ center_distance cx cz x z <= 17).
Proof.
  assert (unit_draws (fun _ => 0.99)) as Hs by (intros n; lra).
  assert (17 < center_distance 0 0 16 6) as Hfar.
  { unfold center_distance.
    change (IZR ((16 - 0) * (16 - 0) + (6 - 0) * (6 - 0))) with 292.
    apply sqrt_gt_bound; lra. }
  split; [exact Hs|]. split; [exact far_cell_emitted|].
  split; [apply decode_encode|]. split; [exact Hfar|].
  intros H.
  destruct (H 0%Z 0%Z (fun _ => 0.99) (encode 16 0 6) Hs far_cell_emitted)
    as (x & y & z & Hd & Hdist).
  rewrite decode_encode in Hd. injection Hd as <- <- <-. lra.
Qed.

(** C7: the block id of a hanging cell comes from two successive draws:
    stone (37) when the first is below 0.6, else mossy cobblestone (24) when
    the next one is below 0.3, else cobblestone (4); the second draw is
    consumed only when the first one fails. Every cell a hanging layer emits
    gets its id this way, from the random state as it is after the erosion
    test. No function of the first draw alone gives the same ids. *)
Theorem hanging_block_two_draws :
  (forall s, (hanging_block s).1 = two_draw_block (s 0%nat) (s 1%nat) /\
             forall n, (hanging_block s).2 n
                       = s ((if Rlt_dec (s 0%nat) 0.6 then 1 else 2) + n)%nat) /\
  (forall cur cx cz y x z d s,
     (hanging_cell cur cx cz y x z (d, s)).1 = d \/
     exists s1, (s1 = s \/ s1 = (random s).2) /\
       hanging_cell cur cx cz y x z (d, s)
       = (Dict.set (encode (x + cx) (- y) (z + cz)) (hanging_block s1).1 d,
          (hanging_block s1).2)) /\
  ~ (exists f : R -> Z, forall s, (hanging_block s).1 = f (s 0%nat)).
Proof.
  split; [|split].
  - intros s. unfold hanging_block, two_draw_block, random.
    destruct (Rlt_dec (s 0%nat) 0.6); [done|].
    destruct (Rlt_dec (s 1%nat) 0.3); done.
  - intros cur cx cz y x z d s.
    destruct (hanging_cell_cases cur cx cz y x z d s) as [->|[->|H]];
      [by left..|by right].
  - intros [f Hf].
    pose proof (Hf (fun n => match n with O => 0.7 | _ => 0.1 end)) as H1.
    pose proof (Hf (fun n => match n with O => 0.7 | _ => 0.9 end)) as H2.
    unfold hanging_block, random in H1, H2. simpl in H1, H2.
    destruct (Rlt_dec 0.7 0.6); [lra|].
    destruct (Rlt_dec 0.1 0.3); [|lra].
    destruct (Rlt_dec 0.9 0.3); [lra|].
    simpl in H1, H2. congruence.
Qed.

(** C8: for a positive depth, [current_radius] does not increase with the
    layer and is 0 at the layer [depth]; with depth 30 the hanging layers
    add keys on the layers -29 ... -1 only, so every key of the cone lies on
    a layer in -29 ... 0 and none at -30 or below. *)
Theorem taper_and_depth :
  (forall depth y1 y2,
     (0 < depth)%Z -> (1 <= y1 <= y2)%Z ->
     current_radius 15 depth y2 <= current_radius 15 depth y1) /\
  (forall depth, (0 < depth)%Z -> current_radius 15 depth depth = 0) /\
  (forall cx cz st k,
     is_Some (Dict.get k (hanging_layers 15 30 cx cz st).1) ->
     is_Some (Dict.get k st.1) \/
     exists x y z, decode k = Some (x, y, z) /\ (-29 <= y <= -1)%Z) /\
  (forall cx cz s k,
     is_Some (Dict.get k (generate_hanging_cone cx cz 0 30 s).1) ->
     exists x y z, decode k = Some (x, y, z) /\ (-29 <= y <= 0)%Z).
Proof.
  split; [exact current_radius_decreasing|].
  split; [exact current_radius_bottom|].
  split.
  - intros cx cz st k H.
    apply hanging_layers_keys in H as [H|(x & y & z & Hy & ->)]; [by left|right].
    exists x, (- y)%Z, z. rewrite decode_encode. split; [done|lia].
  - intros cx cz s k H.
    apply generate_hanging_cone_keys in H as [H|(x & y & z & Hy & ->)].
    + revert H. pose proof (cap_layer_keys cx cz 15 s k) as Hkeys.
      destruct (uniform_list 8 0 (2 * PI) s) as [angles s1].
      destruct (uniform_list 8 0.8 1.2 s1) as [offsets s2].
      intros H. apply Hkeys in H as (x & z & _ & _ & _ & ->).
      exists (x + cx)%Z, 0%Z, (z + cz)%Z. rewrite decode_encode. split; [done|lia].
    + exists x, (- y)%Z, z. rewrite decode_encode. split; [done|lia].
Qed.

(** Whatever the draws in [[0, 1)], the cell under the center is part of the
    cone. *)
Lemma cone_has_center cx cz start_y depth s :
  unit_draws s ->
  is_Some (Dict.get (encode cx 0 cz) (generate_hanging_cone cx cz start_y depth s).1).
Proof.
  intros Hs. apply generate_hanging_cone_keys.
  pose proof (cap_layer_keys cx cz 15 s (encode cx 0 cz)) as Hkeys.
  pose proof (anchors_between 0 1 s (unit_draws_between s Hs)) as Hb.
  destruct (uniform_list 8 0 (2 * PI) s) as [angles s1].
  destruct (uniform_list 8 0.8 1.2 s1) as [offsets s2].
  apply Hkeys. exists 0%Z, 0%Z. repeat split; try lia; [].
  unfold cap_included. specialize (Hb (atan2 0 0)).
  change (IZR (0 * 0 + 0 * 0)) with 0. rewrite sqrt_0.
  set (m := get_radius_offset _ _ _) in *. lra.
Qed.

Lemma taper_and_depth_witness :
  current_radius 15 30 2 <= current_radius 15 30 1 /\
  current_radius 15 30 30 = 0 /\
  (is_Some (Dict.get (encode 0 0 0) [(encode 0 0 0, 24%Z)]) \/
   exists x y z, decode (encode 0 0 0) = Some (x, y, z) /\ (-29 <= y <= -1)%Z) /\
  exists x y z, decode (encode 0 0 0) = Some (x, y, z) /\ (-29 <= y <= 0)%Z.
Proof.
  destruct taper_and_depth as (Hmono & Hzero & Hhang & Hcone).
  split; [apply Hmono; lia|].
  split; [apply Hzero; lia|].
  split.
  - apply (Hhang 0%Z 0%Z ([(encode 0 0 0, 24%Z)], fun _ => 0.5)).
    apply hanging_layers_grows. by eexists.
  - apply (Hcone 0%Z 0%Z (fun _ => 0.5)).
    apply cone_has_center. intros n. lra.
Defined.

End GeneratorClaims.

Section Orchestrator.
Import Generator Main.

(* The proofs of this section use the cones only through their lemmas. *)
Local Opaque generate_hanging_cone.

Lemma cone_loop_cons p ps all s :
  cone_loop (p :: ps) (all, s)
  = cone_loop ps
      (Dict.update all (generate_hanging_cone (center p).1 (center p).2 0 30 s).1,
       (generate_hanging_cone (center p).1 (center p).2 0 30 s).2).
Proof.
  unfold cone_loop. cbn [fold_left]. destruct (center p) as [cx cz].
  cbn [fst snd]. by destruct (generate_hanging_cone cx cz 0 30 s).
Qed.

Lemma cones_cons p ps s :
  cones (p :: ps) s
  = (generate_hanging_cone (center p).1 (center p).2 0 30 s).1
    :: cones ps (generate_hanging_cone (center p).1 (center p).2 0 30 s).2.
Proof.
  cbn [cones]. destruct (center p) as [cx cz].
  cbn [fst snd]. by destruct (generate_hanging_cone cx cz 0 30 s).
Qed.

(** Platforms whose cones lack a key leave it as it was. *)
Lemma cone_loop_untouched k : forall ps all s,
  (forall c, c ∈ cones ps s -> Dict.get k c = None) ->
  Dict.get k (cone_loop ps (all, s)).1 = Dict.get k all.
Proof.
  induction ps as [|p ps IH]; intros all s Hnone; [done|].
  rewrite cone_loop_cons. rewrite cones_cons in Hnone.
  rewrite IH by (intros c Hc; apply Hnone; by right).
  rewrite dict_get_update by apply generate_hanging_cone_NoDup.
  rewrite (Hnone _ ltac:(left)). done.
Qed.

Lemma cone_loop_last k v : forall pre ps all s cone post,
  cones ps s = pre ++ cone :: post ->
  Dict.get k cone = Some v ->
  (forall c, c ∈ post -> Dict.get k c = None) ->
  Dict.get k (cone_loop ps (all, s)).1 = Some v.
Proof.
  induction pre as [|c0 pre IH]; intros ps all s cone post Hc Hk Hpost.
  - destruct ps as [|p ps]; [discriminate Hc|].
    rewrite cones_cons in Hc. rewrite cone_loop_cons.
    change ([] ++ cone :: post) with (cone :: post) in Hc.
    apply (inj2 cons) in Hc as [Hc1 Hc2].
    rewrite cone_loop_untouched by (by rewrite Hc2).
    rewrite dict_get_update by apply generate_hanging_cone_NoDup.
    by rewrite Hc1, Hk.
  - destruct ps as [|p ps]; [discriminate Hc|].
    rewrite cones_cons in Hc. rewrite cone_loop_cons.
    change ((c0 :: pre) ++ cone :: post) with (c0 :: (pre ++ cone :: post)) in Hc.
    apply (inj2 cons) in Hc as [_ Hc2].
    by apply (IH _ _ _ cone post).
Qed.

(** C10: among the cones generated for the platforms, in the order the
    platforms are processed, the last one that holds a key decides the value
    of that key in the accumulated map, whatever the earlier cones stored
    there; and that value is the one merged into a grid that lacks the
    key. *)
Theorem last_platform_wins platforms s blocks pre cone post k v :
  cones platforms s = pre ++ cone :: post ->
  Dict.get k cone = Some v ->
  (forall c, c ∈ post -> Dict.get k c = None) ->
  Dict.get k (cone_loop platforms ([], s)).1 = Some v /\
  (Dict.get k blocks = None ->
   Dict.get k (merge blocks (cone_loop platforms ([], s)).1) = Some v).
Proof.
  intros Hc Hk Hpost.
  pose proof (cone_loop_last k v pre platforms [] s cone post Hc Hk Hpost) as Hall.
  split; [done|]. intros Hb. by rewrite merge_get, Hb.
Qed.

Lemma center_origin : center {[ (0, 0) ]} = (0, 0).
Proof. unfold center. rewrite elements_singleton. reflexivity. Qed.

Lemma last_platform_wins_witness :
  exists v,
    Dict.get (encode 0 0 0)
      (cone_loop [ {[ (0, 0) ]}; {[ (0, 0) ]} ] ([], fun _ => 0.5%R)).1 = Some v /\
    (Dict.get (encode 0 0 0) [(encode 5 0 5, 24)] = None ->
     Dict.get (encode 0 0 0)
       (merge [(encode 5 0 5, 24)]
          (cone_loop [ {[ (0, 0) ]}; {[ (0, 0) ]} ] ([], fun _ => 0.5%R)).1)
     = Some v).
Proof.
  set (s := fun _ : nat => 0.5%R).
  assert (unit_draws s) as Hs by (intros n; unfold s; lra).
  set (c1 := generate_hanging_cone 0 0 0 30 s).
  set (c2 := generate_hanging_cone 0 0 0 30 c1.2).
  assert (unit_draws c1.2) as Hs1
    by (apply generate_hanging_cone_keeps; [exact unit_draws_tail | exact Hs]).
  destruct (cone_has_center 0 0 0 30 c1.2 Hs1) as [v Hv].
  exists v.
  apply (last_platform_wins _ s _ [c1.1] c2.1 [] (encode 0 0 0) v).
  - rewrite !cones_cons, center_origin. reflexivity.
  - exact Hv.
  - intros c Hc. by apply elem_of_nil in Hc.
Defined.

Lemma merge_keeps_grid_witness :
  run 400 (square_grid 0 0) (fun _ => 0.5%R) ≠ Timeout /\
  exists platforms all_cone_blocks added,
    find_platforms 400 (square_grid 0 0) = Done platforms /\
    all_cone_blocks = (cone_loop platforms ([], fun _ => 0.5%R)).1 /\
    merge (square_grid 0 0)
      (cone_loop [list_to_set (square_cells 0 0)] ([], fun _ => 0.5%R)).1
    = square_grid 0 0 ++ added /\
    (forall k v, Dict.get k (square_grid 0 0) = Some v ->
       Dict.get k (merge (square_grid 0 0)
          (cone_loop [list_to_set (square_cells 0 0)] ([], fun _ => 0.5%R)).1)
       = Some v) /\
    (forall k v, (k, v) ∈ added ->
       Dict.get k (square_grid 0 0) = None /\ Dict.get k all_cone_blocks = Some v) /\
    (forall k, Dict.get k (square_grid 0 0) = None ->
       Dict.get k (merge (square_grid 0 0)
          (cone_loop [list_to_set (square_cells 0 0)] ([], fun _ => 0.5%R)).1)
       = Dict.get k all_cone_blocks) /\
    Dict.to_map (merge (square_grid 0 0)
          (cone_loop [list_to_set (square_cells 0 0)] ([], fun _ => 0.5%R)).1)
    = Dict.to_map (square_grid 0 0) ∪ Dict.to_map all_cone_blocks.
Proof.
  assert (flood_fuel (square_grid 0 0) <= 400)%nat as Hf by (vm_compute; lia).
  destruct (merge_keeps_grid 400 (square_grid 0 0) (fun _ => 0.5%R)) as [Hn Hm].
  split; [exact (Hn Hf)|].
  apply Hm. unfold run.
  rewrite (find_platforms_square 0 0 (square_grid 0 0)) by done.
  reflexivity.
Defined.

End Orchestrator.

(** * Further properties of the code *)

(** ** Platforms: seeds, links and saturation *)

Section Platforms.
Variable blocks : list (string * Z).

Lemma linked_mono (P Q : gset (Z * Z)) a c :
  P ⊆ Q -> linked blocks P a c -> linked blocks Q a c.
Proof.
  intros HPQ. induction 1 as [Ha|b c _ IH Hn Ht Hc].
  - apply linked_here. by apply HPQ.
  - eapply linked_step; [exact IH|done|done|]. by apply HPQ.
Qed.

Lemma linked_member P a c : linked blocks P a c -> c ∈ P.
Proof. by destruct 1. Qed.

Lemma linked_seed_or_target P a c :
  linked blocks P a c -> c = a \/ is_target blocks c.
Proof. destruct 1; [by left | by right]. Qed.

Lemma get_neighbors_sym (c n : Z * Z) :
  n ∈ get_neighbors c.1 c.2 -> c ∈ get_neighbors n.1 n.2.
Proof.
  destruct c as [x z], n as [x' z']. unfold get_neighbors. simpl.
  rewrite !elem_of_cons, !elem_of_nil.
  intros [[= -> ->]|[[= -> ->]|[[= -> ->]|[[= -> ->]|[]]]]].
  - right; left. f_equal; lia.
  - left. f_equal; lia.
  - do 3 right; left. f_equal; lia.
  - do 2 right; left. f_equal; lia.
Qed.

(** The loop of the flood fill keeps every platform cell linked to the
    start, as long as each queued cell is the start or a target neighbour of
    a platform cell. *)
Lemma flood_fill_loop_linked start fuel : forall q vis plat vis' plat',
  flood_fill_loop fuel blocks q vis plat = Some (vis', plat') ->
  (forall c, c ∈ plat -> linked blocks plat start c) ->
  (forall c, c ∈ q -> c = start \/
     (is_target blocks c /\ exists b, b ∈ plat /\ c ∈ get_neighbors b.1 b.2)) ->
  forall c, c ∈ plat' -> linked blocks plat' start c.
Proof.
  induction fuel as [|fuel IH]; intros q vis plat vis' plat' H Hp Hq; [discriminate|].
  cbn [flood_fill_loop] in H. destruct q as [|c q].
  - by inversion H; subst.
  - destruct (decide (c ∈ vis)) as [Hin|Hnin].
    + eapply IH; [exact H|exact Hp|]. intros x Hx. apply Hq. by right.
    + eapply IH; [exact H| |].
      * intros x Hx. apply elem_of_union in Hx as [Hx|Hx].
        -- apply elem_of_singleton in Hx as ->.
           destruct (Hq c ltac:(left)) as [->|(Ht & b & Hb & Hn)].
           ++ apply linked_here. apply elem_of_union_l. by apply elem_of_singleton.
           ++ eapply linked_step; [|exact Hn|exact Ht|].
              ** apply (linked_mono plat); [|by apply Hp].
                 intros y Hy. by apply elem_of_union_r.
              ** apply elem_of_union_l. by apply elem_of_singleton.
        -- apply (linked_mono plat); [|by apply Hp].
           intros y Hy. by apply elem_of_union_r.
      * intros x Hx. apply elem_of_app in Hx as [Hx|Hx].
        -- destruct (Hq x ltac:(by right)) as [->|(Ht & b & Hb & Hn)]; [by left|].
           right. split; [done|]. exists b. split; [|done]. by apply elem_of_union_r.
        -- apply list_elem_of_filter in Hx as [[Ht _] Hn]. right. split; [done|].
           exists c. split; [|done]. apply elem_of_union_l. by apply elem_of_singleton.
Qed.

Lemma flood_fill_linked fuel vis start vis' plat :
  flood_fill fuel blocks vis start = Some (vis', plat) ->
  forall c, c ∈ plat -> linked blocks plat start c.
Proof.
  intros H. eapply flood_fill_loop_linked; [exact H| |].
  - intros c Hc. by apply elem_of_empty in Hc.
  - intros c Hc. left. by apply list_elem_of_singleton in Hc.
Qed.

Lemma flood_fill_start fuel vis start vis' plat :
  start ∉ vis ->
  flood_fill fuel blocks vis start = Some (vis', plat) -> start ∈ plat.
Proof.
  intros Hs H. pose proof (flood_fill_fresh _ _ _ _ _ _ H) as (-> & Hd & _).
  apply flood_fill_loop_closed in H as [Hq _].
  - specialize (Hq start ltac:(left)).
    apply elem_of_union in Hq as [Hq|Hq]; [done|done].
  - intros c n Hc. by apply elem_of_empty in Hc.
Qed.

Lemma scan_seeded fuel : forall todo vis ps res,
  scan fuel blocks todo vis ps = Done res ->
  (forall kv, kv ∈ todo -> kv ∈ blocks) ->
  Forall (seeded blocks) ps -> Forall (seeded blocks) res.
Proof.
  induction todo as [|[coord b] todo IH]; intros vis ps res H Hin Hps;
    cbn [scan] in H.
  - by inversion H; subst.
  - assert (forall kv, kv ∈ todo -> kv ∈ blocks) as Hin'
      by (intros kv Hkv; apply Hin; by right).
    destruct (decide (b ≠ 24)) as [|Hb]; [eauto|].
    assert (b = 24) as -> by (destruct (decide (b = 24)); [done|contradiction]).
    destruct (decode coord) as [[[x y] z]|] eqn:Hd; [|discriminate].
    destruct (decide ((x, z) ∈ vis)) as [|Hv]; [eauto|].
    destruct (flood_fill fuel blocks vis (x, z)) as [[vis' plat]|] eqn:Hff;
      [|discriminate].
    apply IH in H; [done|done|].
    destruct (decide (50 < size plat)%nat); [|done].
    apply Forall_app. split; [done|]. constructor; [|constructor].
    exists coord, x, y, z. split; [apply Hin; left|]. split; [done|].
    split; [by eapply flood_fill_start|]. by eapply flood_fill_linked.
Qed.


(** The visited set is closed under target neighbours at every step of the
    scan, and every platform is saturated. *)
Lemma scan_saturated fuel : forall todo vis ps res,
  scan fuel blocks todo vis ps = Done res ->
  (forall c n, c ∈ vis -> n ∈ get_neighbors c.1 c.2 -> is_target blocks n -> n ∈ vis) ->
  Forall (saturated blocks) ps -> Forall (saturated blocks) res.
Proof.
  induction todo as [|[coord b] todo IH]; intros vis ps res H Hcl Hps;
    cbn [scan] in H.
  - by inversion H; subst.
  - destruct (decide (b ≠ 24)) as [|Hb]; [eauto|].
    destruct (decode coord) as [[[x y] z]|] eqn:Hd; [|discriminate].
    destruct (decide ((x, z) ∈ vis)) as [|Hv]; [eauto|].
    destruct (flood_fill fuel blocks vis (x, z)) as [[vis' plat]|] eqn:Hff;
      [|discriminate].
    pose proof (flood_fill_fresh _ _ _ _ _ _ Hff) as (-> & Hd' & _).
    apply flood_fill_loop_closed in Hff as [_ Hcl'];
      [|intros c n Hc; by apply elem_of_empty in Hc].
    apply IH in H; [done| |].
    + intros c n Hc Hn Ht. apply elem_of_union in Hc as [Hc|Hc].
      * apply elem_of_union_l. by eapply Hcl.
      * by eapply Hcl'.
    + destruct (decide (50 < size plat)%nat); [|done].
      apply Forall_app. split; [done|]. constructor; [|constructor].
      intros c n Hc Htc Hn Htn.
      specialize (Hcl' c n Hc Hn Htn).
      apply elem_of_union in Hcl' as [Hnv|]; [|done].
      exfalso. apply (Hd' c Hc). apply (Hcl n c Hnv); [|done].
      by apply get_neighbors_sym.
Qed.

End Platforms.

(** X1: every platform [find_platforms] returns is grown from a seed. Some
    key of the grid with value 24 decodes to [(x, y, z)], the cell [(x, z)]
    is in the platform, and every member is reached from [(x, z)] by steps
    to 4-adjacent cells that hold block 24 at [y = 0], without leaving the
    platform; so every member other than the seed holds block 24 at
    [y = 0]. *)
Theorem platforms_grow_from_seeds fuel blocks ps :
  find_platforms fuel blocks = Done ps ->
  Forall (fun p =>
    exists coord x y z,
      (coord, 24) ∈ blocks /\ decode coord = Some (x, y, z) /\ (x, z) ∈ p /\
      forall c, c ∈ p ->
        linked blocks p (x, z) c /\ (c = (x, z) \/ is_target blocks c)) ps.
Proof.
  intros H. apply scan_seeded in H; [|done|constructor].
  eapply Forall_impl; [exact H|]. simpl.
  intros p (coord & x & y & z & Hin & Hd & Hs & Hl).
  exists coord, x, y, z. repeat split; try done; [by apply Hl|].
  by eapply linked_seed_or_target, Hl.
Qed.

Lemma platforms_grow_from_seeds_witness :
  Forall (fun p =>
    exists coord x y z,
      (coord, 24) ∈ two_squares_grid /\ decode coord = Some (x, y, z) /\ (x, z) ∈ p /\
      forall c, c ∈ p ->
        linked two_squares_grid p (x, z) c /\
        (c = (x, z) \/ is_target two_squares_grid c))
    [list_to_set (square_cells 0 0); list_to_set (square_cells 20 0)].
Proof.
  exact (platforms_grow_from_seeds _ _ _ two_squares_platforms).
Defined.

(** X2: a platform is closed under adjacency. When a member holds block
    24 at [y = 0], each of its four neighbours that holds block 24 at
    [y = 0] is a member of the same platform. *)
Theorem platforms_are_saturated fuel blocks ps :
  find_platforms fuel blocks = Done ps ->
  Forall (fun p =>
    forall c n, c ∈ p -> is_target blocks c ->
                n ∈ get_neighbors c.1 c.2 -> is_target blocks n -> n ∈ p) ps.
Proof.
  intros H. apply scan_saturated in H; [done| |constructor].
  intros c n Hc. by apply elem_of_empty in Hc.
Qed.

Lemma platforms_are_saturated_witness :
  Forall (fun p : gset (Z * Z) =>
    forall c n, c ∈ p -> is_target two_squares_grid c ->
                n ∈ get_neighbors c.1 c.2 -> is_target two_squares_grid n -> n ∈ p)
    [list_to_set (square_cells 0 0); list_to_set (square_cells 20 0)].
Proof.
  exact (platforms_are_saturated _ _ _ two_squares_platforms).
Defined.








(** ** The merge counter, the centers and small grids *)

Section MergeMore.
Import Main.
Implicit Types (b g : list (string * Z)) (k : string) (v : Z).

(** Nothing is written when the grid has every generated key. *)
Lemma merge_all_present g : forall b,
  (forall kv, kv ∈ g -> is_Some (Dict.get kv.1 b)) -> merge b g = b.
Proof.
  induction g as [|kv g IH]; intros b Hall; [done|].
  rewrite merge_cons. destruct (Hall kv ltac:(left)) as [w ->].
  apply IH. intros kv' Hkv'. apply Hall. by right.
Qed.

Lemma merge_count_steps g : forall b n,
  fold_left
    (fun st kv =>
       match Dict.get kv.1 st.1 with
       | None => (Dict.set kv.1 kv.2 st.1, st.2 + 1)
       | Some _ => st
       end) g (b, n)
  = (merge b g, n + (Z.of_nat (length (merge b g)) - Z.of_nat (length b))).
Proof.
  induction g as [|kv g IH]; intros b n.
  - simpl. f_equal. lia.
  - rewrite merge_cons. cbn [fold_left fst snd].
    destruct (Dict.get kv.1 b) eqn:E.
    + apply IH.
    + rewrite IH. f_equal.
      rewrite (dict_set_fresh _ _ _ E), length_app. cbn [length]. lia.
Qed.

(** X5: merging the same generated blocks a second time changes
    nothing. *)
Theorem merge_twice b g : merge (merge b g) g = merge b g.
Proof.
  apply merge_all_present. intros [k v] Hkv. simpl. rewrite merge_get.
  destruct (Dict.get k b); [by eexists|].
  destruct (dict_get_is_Some k v g Hkv) as (w & -> & _). by eexists.
Qed.

(** X6: the counter [blocks_added] of the merge loop. The grid the
    counting loop leaves is the merged grid; the merged grid has exactly
    [blocks_added] more entries than the input; the count lies between 0 and
    the number of generated blocks, and it is 0 exactly when the grid is
    unchanged. *)
Theorem blocks_added_counts b g :
  (merge_count b g).1 = merge b g /\
  Z.of_nat (length (merge b g)) = Z.of_nat (length b) + (merge_count b g).2 /\
  0 <= (merge_count b g).2 <= Z.of_nat (length g) /\
  ((merge_count b g).2 = 0 <-> merge b g = b).
Proof.
  unfold merge_count. rewrite merge_count_steps. cbn [fst snd].
  destruct (merge_appends g b) as (added & Happ & Hadd).
  assert (length added <= length g)%nat as Hle.
  { clear Hadd. revert b added Happ. induction g as [|kv g IH]; intros b added Happ.
    - simpl in Happ. assert (added = []) as ->; [|done].
      apply (app_inv_head b). by rewrite app_nil_r.
    - rewrite merge_cons in Happ. destruct (Dict.get kv.1 b) eqn:E.
      + apply IH in Happ. cbn [length]. lia.
      + rewrite (dict_set_fresh _ _ _ E) in Happ.
        destruct added as [|a added]; [cbn [length]; lia|].
        assert (merge (b ++ [(kv.1, kv.2)]) g = (b ++ [(kv.1, kv.2)]) ++ added) as H1.
        { destruct (merge_appends g (b ++ [(kv.1, kv.2)])) as (ad' & Hm & _).
          rewrite Hm in Happ |- *. rewrite <- app_assoc in Happ.
          apply app_inv_head in Happ. simpl in Happ. by injection Happ as _ ->. }
        apply IH in H1. cbn [length]. lia. }
  rewrite Happ, length_app. repeat split; try lia.
  - intros H0. assert (length added = 0)%nat as Hl by lia.
    destruct added; [by rewrite app_nil_r | discriminate].
  - intros He. assert (added = []) as ->; [|simpl; lia].
    apply (app_inv_head b). by rewrite app_nil_r.
Qed.

End MergeMore.

Section Centers.
Import Main.

Lemma sum_between lo hi (xs : list Z) :
  Forall (fun x => lo <= x <= hi) xs ->
  Z.of_nat (length xs) * lo <= foldr Z.add 0 xs <= Z.of_nat (length xs) * hi.
Proof.
  induction 1 as [|x xs Hx _ IH]; cbn [foldr length]; lia.
Qed.

(** X7: for a platform with at least one cell, the center [main]
    computes lies in the bounding box of the platform, and each of its
    coordinates is the mean of the members' coordinates rounded down:
    [n * center <= sum < n * (center + 1)] for the [n] members. *)
Theorem center_inside (p : gset (Z * Z)) xlo xhi zlo zhi :
  p ≠ ∅ ->
  (forall c, c ∈ p -> xlo <= c.1 <= xhi /\ zlo <= c.2 <= zhi) ->
  let n := Z.of_nat (size p) in
  xlo <= (center p).1 <= xhi /\ zlo <= (center p).2 <= zhi /\
  n * (center p).1 <= foldr Z.add 0 (elements p).*1 < n * ((center p).1 + 1) /\
  n * (center p).2 <= foldr Z.add 0 (elements p).*2 < n * ((center p).2 + 1).
Proof.
  intros Hne Hin n. unfold center. cbn [fst snd].
  assert (0 < n) as Hn.
  { unfold n. assert (size p ≠ 0)%nat; [|lia]. by intros ?%size_empty_inv%leibniz_equiv. }
  rewrite !length_fmap. change (length (elements p)) with (size p). fold n.
  assert (Forall (fun x => xlo <= x <= xhi) (elements p).*1) as Hx.
  { apply Forall_fmap, Forall_forall. intros c Hc. apply elem_of_elements in Hc.
    by apply Hin. }
  assert (Forall (fun z => zlo <= z <= zhi) (elements p).*2) as Hz.
  { apply Forall_fmap, Forall_forall. intros c Hc. apply elem_of_elements in Hc.
    by apply Hin. }
  apply sum_between in Hx, Hz. rewrite !length_fmap in Hx, Hz.
  change (length (elements p)) with (size p) in Hx, Hz. fold n in Hx, Hz.
  set (sx := foldr Z.add 0 (elements p).*1) in *.
  set (sz := foldr Z.add 0 (elements p).*2) in *.
  pose proof (Z.mul_div_le sx n Hn). pose proof (Z.mul_succ_div_gt sx n Hn).
  pose proof (Z.mul_div_le sz n Hn). pose proof (Z.mul_succ_div_gt sz n Hn).
  repeat split; try lia.
  - apply Z.div_le_lower_bound; lia.
  - apply Z.div_le_upper_bound; lia.
  - apply Z.div_le_lower_bound; lia.
  - apply Z.div_le_upper_bound; lia.
Qed.

Lemma center_inside_witness :
  -3 <= (center {[ (-3, 2); (0, 5) ]}).1 <= 0 /\
  2 <= (center {[ (-3, 2); (0, 5) ]}).2 <= 5 /\
  Z.of_nat (size ({[ (-3, 2); (0, 5) ]} : gset (Z * Z)))
    * (center {[ (-3, 2); (0, 5) ]}).1
  <= foldr Z.add 0 (elements ({[ (-3, 2); (0, 5) ]} : gset (Z * Z))).*1
  < Z.of_nat (size ({[ (-3, 2); (0, 5) ]} : gset (Z * Z)))
    * ((center {[ (-3, 2); (0, 5) ]}).1 + 1) /\
  Z.of_nat (size ({[ (-3, 2); (0, 5) ]} : gset (Z * Z)))
    * (center {[ (-3, 2); (0, 5) ]}).2
  <= foldr Z.add 0 (elements ({[ (-3, 2); (0, 5) ]} : gset (Z * Z))).*2
  < Z.of_nat (size ({[ (-3, 2); (0, 5) ]} : gset (Z * Z)))
    * ((center {[ (-3, 2); (0, 5) ]}).2 + 1).
Proof.
  apply (center_inside {[ (-3, 2); (0, 5) ]} (-3) 0 2 5).
  - intros H. assert ((0, 5) ∈ (∅ : gset (Z * Z))) as H0 by (rewrite <- H; set_solver).
    by apply elem_of_empty in H0.
  - intros c Hc. apply elem_of_union in Hc as [Hc|Hc];
      apply elem_of_singleton in Hc as ->; simpl; lia.
Defined.

Example center_floors : center {[ (-3, 2); (0, 5) ]} = (-2, 3).
Proof. vm_compute. reflexivity. Qed.

End Centers.

(** X8: different coordinate triples get different keys. *)
Theorem encode_injective x y z x' y' z' :
  (x, y, z) <> (x', y', z') -> encode x y z <> encode x' y' z'.
Proof.
  intros Hne H. apply Hne. apply encode_inj in H as (-> & -> & ->). reflexivity.
Qed.

Lemma encode_injective_witness : encode 1 0 11 <> encode 10 1 1.
Proof. apply encode_injective. intros [= ]. Defined.

Section RunEdges.
Import Main.



End RunEdges.

(** ** Block ids *)

Section BlockIds.
Import Generator Main.

Lemma dict_set_values (Q : Z -> Prop) k v (d : list (string * Z)) :
  Q v -> Forall (fun kv => Q kv.2) d -> Forall (fun kv => Q kv.2) (Dict.set k v d).
Proof.
  intros Hv. induction 1 as [|[k0 v0] d H0 Hd IH]; cbn [Dict.set].
  - by repeat constructor.
  - destruct (decide (k = k0)); constructor; done.
Qed.

Lemma dict_update_values (Q : Z -> Prop) (g : list (string * Z)) : forall d,
  Forall (fun kv => Q kv.2) g -> Forall (fun kv => Q kv.2) d ->
  Forall (fun kv => Q kv.2) (Dict.update d g).
Proof.
  induction g as [|kv g IH]; intros d Hg Hd; [done|].
  apply Forall_cons in Hg as [Hkv Hg].
  rewrite dict_update_cons. apply IH; [done|]. by apply dict_set_values.
Qed.

Lemma stone_or_cobble_id s : cone_block (stone_or_cobble s).1.
Proof.
  unfold stone_or_cobble, random. destruct (Rlt_dec _ _); [by left|by right; right].
Qed.

Lemma hanging_block_id s : cone_block (hanging_block s).1.
Proof.
  unfold hanging_block, random. destruct (Rlt_dec _ _); [by left|].
  destruct (Rlt_dec _ _); [by right; left|by right; right].
Qed.

Lemma cap_cell_ids radius angles offsets cx cz x z st :
  Forall (fun kv => cone_block kv.2) st.1 ->
  Forall (fun kv => cone_block kv.2) (cap_cell radius angles offsets cx cz x z st).1.
Proof.
  destruct st as [d s]. unfold cap_cell. cbn [fst]. intros Hd.
  destruct (Rle_dec _ _); [|done].
  destruct (Rle_dec _ _).
  - destruct (Rlt_dec _ _).
    + pose proof (stone_or_cobble_id s). destruct (stone_or_cobble s).
      by apply dict_set_values.
    + apply dict_set_values; [by right; left|done].
  - unfold random. destruct (Rlt_dec _ _).
    + apply dict_set_values; [by right; left|done].
    + pose proof (stone_or_cobble_id (fun n => s (S n))).
      destruct (stone_or_cobble _). by apply dict_set_values.
Qed.

Lemma hanging_cell_ids cur cx cz y x z st :
  Forall (fun kv => cone_block kv.2) st.1 ->
  Forall (fun kv => cone_block kv.2) (hanging_cell cur cx cz y x z st).1.
Proof.
  destruct st as [d s]. cbn [fst]. intros Hd.
  destruct (hanging_cell_cases cur cx cz y x z d s) as [->|[->|(s1 & _ & ->)]];
    [done..|].
  apply dict_set_values; [apply hanging_block_id|done].
Qed.

Lemma create_organic_platform_layer_ids cx cz radius s :
  Forall (fun kv => cone_block kv.2) (create_organic_platform_layer cx cz radius s).1.
Proof.
  unfold create_organic_platform_layer.
  destruct (uniform_list 8 0 (2 * PI) s) as [angles s1].
  destruct (uniform_list 8 0.8 1.2 s1) as [offsets s2].
  apply (loop_invariant
           (fun x st => fold_left (fun st z => cap_cell radius angles offsets cx cz x z st) _ st)
           (fun st => Forall (fun kv => cone_block kv.2) st.1)); [|constructor].
  intros x st Hst.
  apply (loop_invariant (fun z st => cap_cell radius angles offsets cx cz x z st)
           (fun st => Forall (fun kv => cone_block kv.2) st.1)); [|done].
  intros z st'. apply cap_cell_ids.
Qed.

Lemma generate_hanging_cone_ids cx cz start_y depth s :
  Forall (fun kv => cone_block kv.2) (generate_hanging_cone cx cz start_y depth s).1.
Proof.
  pose proof (create_organic_platform_layer_ids cx cz 15 s) as Hcap.
  unfold generate_hanging_cone.
  destruct (create_organic_platform_layer cx cz 15 s) as [pb s1].
  apply (hanging_layers_invariant (fun st => Forall (fun kv => cone_block kv.2) st.1)).
  - intros cur y x z st. apply hanging_cell_ids.
  - cbn [fst]. apply dict_update_values; [done|constructor].
Qed.

End BlockIds.

(** ** The reach of the hanging layers *)

Section Reach.
Import Generator Main.
Local Open Scope R_scope.

Lemma abs_le_distance (x z : Z) :
  - sqrt (IZR (x * x + z * z)) <= IZR x <= sqrt (IZR (x * x + z * z)) /\
  - sqrt (IZR (x * x + z * z)) <= IZR z <= sqrt (IZR (x * x + z * z)).
Proof.
  assert (0 <= IZR (x * x + z * z)) as Hs by (apply IZR_le; nia).
  pose proof (sqrt_pos (IZR (x * x + z * z))) as Hq.
  pose proof (sqrt_sqrt _ Hs) as Hqq.
  rewrite plus_IZR, !mult_IZR in *.
  set (q := sqrt _) in *. nra.
Qed.

Lemma trunc_floor r : 0 <= r -> IZR (trunc r) <= r < IZR (trunc r) + 1.
Proof.
  intros Hr. unfold trunc. destruct (Rle_dec 0 r); [|lra].
  pose proof (base_Int_part r). lra.
Qed.

(** An offset within distance [cur] of the axis is within the ranges of the
    two loops of the layer. *)
Lemma offset_in_range cur (x z : Z) :
  sqrt (IZR (x * x + z * z)) <= cur ->
  x ∈ range (- trunc cur) (trunc cur + 1) /\ z ∈ range (- trunc cur) (trunc cur + 1).
Proof.
  intros H. pose proof (abs_le_distance x z) as [Hx Hz].
  pose proof (sqrt_pos (IZR (x * x + z * z))) as Hq.
  pose proof (trunc_floor cur ltac:(lra)) as Ht.
  rewrite !elem_of_range.
  assert (forall i : Z, - sqrt (IZR (x * x + z * z)) <= IZR i <= sqrt (IZR (x * x + z * z)) ->
                        (- trunc cur <= i < trunc cur + 1)%Z) as Hi.
  { intros i Hi. split.
    - assert (- trunc cur - 1 < i)%Z; [|lia].
      apply lt_IZR. rewrite minus_IZR, opp_IZR. lra.
    - apply lt_IZR. rewrite plus_IZR. lra. }
  split; by apply Hi.
Qed.

Lemma hanging_cell_keys_in cur cx cz y x z st k :
  is_Some (Dict.get k (hanging_cell cur cx cz y x z st).1) ->
  is_Some (Dict.get k st.1) \/
  (sqrt (IZR (x * x + z * z)) <= cur /\ k = encode (x + cx) (- y) (z + cz)).
Proof.
  destruct st as [d s]. unfold hanging_cell. cbn [fst].
  destruct (Rle_dec _ _) as [Hin|]; [|by left].
  destruct (Rlt_dec _ _).
  - cbn [random]. destruct (Rlt_dec _ _); [by left|].
    destruct (hanging_block _) as [b s2]. cbn [fst].
    rewrite dict_set_is_Some. intros [?| ->]; [by left|by right].
  - destruct (hanging_block s) as [b s2]. cbn [fst].
    rewrite dict_set_is_Some. intros [?| ->]; [by left|by right].
Qed.

(** Farther than 2 inside the radius no cell is skipped. *)
Lemma hanging_cell_core cur cx cz y x z st :
  sqrt (IZR (x * x + z * z)) <= cur - 2 ->
  is_Some (Dict.get (encode (x + cx) (- y) (z + cz))
             (hanging_cell cur cx cz y x z st).1).
Proof.
  destruct st as [d s]. unfold hanging_cell. intros H.
  destruct (Rle_dec _ _); [|lra]. destruct (Rlt_dec _ _); [lra|].
  destruct (hanging_block s) as [b s2]. cbn [fst].
  rewrite dict_set_is_Some. by right.
Qed.

Lemma hanging_layer_grows max_radius depth cx cz y st k :
  is_Some (Dict.get k st.1) ->
  is_Some (Dict.get k (hanging_layer max_radius depth cx cz y st).1).
Proof.
  unfold hanging_layer.
  apply (loop_invariant (fun x st => fold_left _ _ st)
           (fun st => is_Some (Dict.get k st.1))).
  intros x st' Hst'.
  apply (loop_invariant
           (fun z st => hanging_cell (current_radius max_radius depth y) cx cz y x z st)
           (fun st => is_Some (Dict.get k st.1))); [|done].
  intros z st''. apply hanging_cell_grows.
Qed.

Lemma hanging_layer_keys_in max_radius depth cx cz y st k :
  is_Some (Dict.get k (hanging_layer max_radius depth cx cz y st).1) ->
  is_Some (Dict.get k st.1) \/
  exists x z, sqrt (IZR (x * x + z * z)) <= current_radius max_radius depth y /\
              k = encode (x + cx) (- y) (z + cz).
Proof.
  unfold hanging_layer. intros H.
  apply (loop_keys_sound (fun x st => fold_left _ _ st)
           (fun x k => exists z,
              sqrt (IZR (x * x + z * z)) <= current_radius max_radius depth y /\
              k = encode (x + cx) (- y) (z + cz))) in H.
  - destruct H as [H|(x & _ & z & Hd & ->)]; [by left|right]. eauto.
  - clear. intros x st k H.
    apply (loop_keys_sound
             (fun z st => hanging_cell (current_radius max_radius depth y) cx cz y x z st)
             (fun z k => sqrt (IZR (x * x + z * z)) <= current_radius max_radius depth y /\
                         k = encode (x + cx) (- y) (z + cz))) in H.
    + destruct H as [H|(z & _ & Hd & ->)]; [by left|right]. eauto.
    + intros z st' k'. apply hanging_cell_keys_in.
Qed.

Lemma hanging_layer_core max_radius depth cx cz y x z st :
  sqrt (IZR (x * x + z * z)) <= current_radius max_radius depth y - 2 ->
  is_Some (Dict.get (encode (x + cx) (- y) (z + cz))
             (hanging_layer max_radius depth cx cz y st).1).
Proof.
  intros H. unfold hanging_layer.
  set (cur := current_radius max_radius depth y) in *.
  destruct (offset_in_range cur x z ltac:(lra)) as [Hx Hz].
  set (rg := range _ _) in *.
  apply (loop_keys_complete
           (fun x st => fold_left (fun st z => hanging_cell cur cx cz y x z st) rg st)
           (fun x k => exists z, z ∈ rg /\ sqrt (IZR (x * x + z * z)) <= cur - 2 /\
                                 k = encode (x + cx) (- y) (z + cz))).
  - intros x' st' k' Hk'.
    apply (loop_keys_complete
             (fun z st => hanging_cell cur cx cz y x' z st)
             (fun z k => sqrt (IZR (x' * x' + z * z)) <= cur - 2 /\
                         k = encode (x' + cx) (- y) (z + cz))).
    + intros z' st'' k'' [Hk''|[Hd ->]];
        [by apply hanging_cell_grows | by apply hanging_cell_core].
    + destruct Hk' as [?|(z' & Hz' & Hd & ->)]; [by left|right]. by exists z'.
  - right. exists x. split; [done|]. by exists z.
Qed.

Lemma hanging_layers_keys_in max_radius depth cx cz st k :
  is_Some (Dict.get k (hanging_layers max_radius depth cx cz st).1) ->
  is_Some (Dict.get k st.1) \/
  exists x y z, (1 <= y < depth)%Z /\
    sqrt (IZR (x * x + z * z)) <= current_radius max_radius depth y /\
    k = encode (x + cx) (- y) (z + cz).
Proof.
  unfold hanging_layers. intros H.
  apply (loop_keys_sound
           (fun y st => hanging_layer max_radius depth cx cz y st)
           (fun y k => exists x z,
              sqrt (IZR (x * x + z * z)) <= current_radius max_radius depth y /\
              k = encode (x + cx) (- y) (z + cz))) in H.
  - destruct H as [H|(y & Hy & x & z & Hd & ->)]; [by left|right].
    apply elem_of_range in Hy. by exists x, y, z.
  - intros y st' k'. apply hanging_layer_keys_in.
Qed.

Lemma hanging_layers_core max_radius depth cx cz y x z st :
  (1 <= y < depth)%Z ->
  sqrt (IZR (x * x + z * z)) <= current_radius max_radius depth y - 2 ->
  is_Some (Dict.get (encode (x + cx) (- y) (z + cz))
             (hanging_layers max_radius depth cx cz st).1).
Proof.
  intros Hy H. unfold hanging_layers.
  apply (loop_keys_complete
           (fun y st => hanging_layer max_radius depth cx cz y st)
           (fun y k => exists x z,
              sqrt (IZR (x * x + z * z)) <= current_radius max_radius depth y - 2 /\
              k = encode (x + cx) (- y) (z + cz))).
  - intros y' st' k' [Hk'|(x' & z' & Hd & ->)];
      [by apply hanging_layer_grows | by apply hanging_layer_core].
  - right. exists y. split; [by apply elem_of_range|]. by exists x, z.
Qed.

Lemma current_radius_below max_radius depth y :
  (0 < max_radius)%Z -> current_radius max_radius depth y < IZR max_radius.
Proof.
  intros Hm. unfold current_radius.
  assert (0 < IZR max_radius) as Hm' by (by apply IZR_lt).
  assert (0 < Rpower (IZR y / IZR depth) 0.7) by (unfold Rpower; apply exp_pos).
  nra.
Qed.

(** Below 1 the power 0.7 is under the square root. *)
Lemma Rpower_07_sqrt a : 0 < a < 1 -> Rpower a 0.7 <= sqrt a.
Proof.
  intros Ha. rewrite <- Rpower_sqrt by lra. unfold Rpower.
  assert (ln a < 0) as Hln by (rewrite <- ln_1; apply ln_increasing; lra).
  destruct (Req_dec (0.7 * ln a) (/ 2 * ln a)) as [->|Hne]; [lra|].
  left. apply exp_increasing. lra.
Qed.

(** The keys of a cone: the cap layer at [y = 0] and the hanging cells,
    each within the radius of its layer. *)
Lemma generate_hanging_cone_keys_in cx cz start_y depth s k :
  is_Some (Dict.get k (generate_hanging_cone cx cz start_y depth s).1) ->
  is_Some (Dict.get k (create_organic_platform_layer cx cz 15 s).1) \/
  exists x y z, (1 <= y < depth)%Z /\
    sqrt (IZR (x * x + z * z)) <= current_radius 15 depth y /\
    k = encode (x + cx) (- y) (z + cz).
Proof.
  pose proof (create_organic_platform_layer_NoDup cx cz 15 s) as Hnd.
  unfold generate_hanging_cone.
  destruct (create_organic_platform_layer cx cz 15 s) as [pb s1]. cbn [fst] in *.
  intros H. apply hanging_layers_keys_in in H as [H|H]; [left|by right].
  cbn [fst] in H. rewrite dict_get_update in H by done.
  destruct (Dict.get k pb); [done|]. by destruct H.
Qed.

Lemma generate_hanging_cone_core cx cz start_y depth s x y z :
  (1 <= y < depth)%Z ->
  sqrt (IZR (x * x + z * z)) <= current_radius 15 depth y - 2 ->
  is_Some (Dict.get (encode (x + cx) (- y) (z + cz))
             (generate_hanging_cone cx cz start_y depth s).1).
Proof.
  intros Hy H. unfold generate_hanging_cone.
  destruct (create_organic_platform_layer cx cz 15 s) as [pb s1].
  by apply hanging_layers_core.
Qed.

Lemma first_layer_radius : 12 <= current_radius 15 30 1.
Proof.
  unfold current_radius.
  assert (Rpower (1 / 30) 0.7 <= / 5) as H.
  { etransitivity; [apply Rpower_07_sqrt; lra|].
    apply sqrt_le_bound; lra. }
  lra.
Qed.

Lemma cap_keys_plane cx cz radius s k :
  is_Some (Dict.get k (create_organic_platform_layer cx cz radius s).1) ->
  exists x z, k = encode x 0 z.
Proof.
  pose proof (cap_layer_keys cx cz radius s k) as Hkeys.
  destruct (uniform_list 8 0 (2 * PI) s) as [angles s1].
  destruct (uniform_list 8 0.8 1.2 s1) as [offsets s2].
  intros H. apply Hkeys in H as (x & z & _ & _ & _ & ->). eauto.
Qed.

(** X10: a key of a cone that is not on the plane [y = 0] lies on a layer
    in [-(depth-1) ... -1], and the horizontal distance of its cell from the
    axis of the cone is at most [current_radius] of its layer, which is
    less than 15. *)
Theorem hanging_cells_inside_taper cx cz start_y depth s k x y z :
  is_Some (Dict.get k (generate_hanging_cone cx cz start_y depth s).1) ->
  decode k = Some (x, y, z) -> (y <> 0)%Z ->
  (- depth < y <= -1)%Z /\
  center_distance cx cz x z <= current_radius 15 depth (- y) /\
  current_radius 15 depth (- y) < 15.
Proof.
  intros Hk Hd Hy.
  apply generate_hanging_cone_keys_in in Hk as [Hk|(dx & y' & dz & Hy' & Hdist & ->)].
  - apply cap_keys_plane in Hk as (x' & z' & ->).
    rewrite decode_encode in Hd. congruence.
  - rewrite decode_encode in Hd. injection Hd as <- <- <-.
    split; [lia|]. rewrite Z.opp_involutive.
    split; [|by apply current_radius_below].
    unfold center_distance.
    replace (dx + cx - cx)%Z with dx by lia. replace (dz + cz - cz)%Z with dz by lia.
    done.
Qed.

Lemma hanging_cells_inside_taper_witness :
  (- 30 < -1 <= -1)%Z /\
  center_distance 4 (-2) 4 (-2) <= current_radius 15 30 (- -1) /\
  current_radius 15 30 (- -1) < 15.
Proof.
  apply (hanging_cells_inside_taper 4 (-2) 0 30 (fun _ => 0.5) (encode 4 (-1) (-2))).
  - apply (generate_hanging_cone_core 4 (-2) 0 30 (fun _ => 0.5) 0 1 0); [lia|].
    change (IZR (0 * 0 + 0 * 0)) with 0. rewrite sqrt_0.
    pose proof first_layer_radius. lra.
  - apply decode_encode.
  - lia.
Defined.

(** X11: the cone has a solid core. On every layer [1 <= y < depth],
    every cell whose horizontal distance from the axis is at most
    [current_radius - 2] is part of the cone, whatever the draws: the
    random erosion only applies to the outer ring. *)
Theorem cone_has_solid_core cx cz start_y depth s x y z :
  (1 <= y < depth)%Z ->
  center_distance cx cz x z <= current_radius 15 depth y - 2 ->
  is_Some (Dict.get (encode x (- y) z)
             (generate_hanging_cone cx cz start_y depth s).1).
Proof.
  intros Hy H. unfold center_distance in H.
  replace x with (x - cx + cx)%Z at 1 by lia.
  replace z with (z - cz + cz)%Z at 1 by lia.
  by apply generate_hanging_cone_core.
Qed.

Lemma cone_has_solid_core_witness :
  is_Some (Dict.get (encode 7 (- 1) (-8))
             (generate_hanging_cone 4 (-2) 0 30 (fun _ => 0.5)).1).
Proof.
  apply (cone_has_solid_core 4 (-2) 0 30 (fun _ => 0.5) 7 1 (-8)); [lia|].
  unfold center_distance.
  change (IZR ((7 - 4) * (7 - 4) + (-8 - -2) * (-8 - -2))) with 45.
  pose proof first_layer_radius.
  assert (sqrt 45 <= 7) by (apply sqrt_le_bound; lra). lra.
Defined.

End Reach.

(** ** The cap layer *)

Section Cap.
Import Generator Main.
Local Open Scope R_scope.








End Cap.

(** ** Coverage of the seeds; entries that do not matter *)

Section Coverage.
Variable blocks : list (string * Z).

(** Every cell visited so far lies in a flood-filled set that is grown from
    a seed and saturated, and that is among the platforms when it has more
    than 50 cells. *)
Lemma scan_covers fuel : forall todo vis ps res,
  scan fuel blocks todo vis ps = Done res ->
  (forall kv, kv ∈ todo -> kv ∈ blocks) ->
  (forall c n, c ∈ vis -> n ∈ get_neighbors c.1 c.2 -> is_target blocks n -> n ∈ vis) ->
  (forall c, c ∈ vis -> exists p, c ∈ p /\ seeded blocks p /\ saturated blocks p /\
                                  ((50 < size p)%nat -> p ∈ ps)) ->
  forall c, (c ∈ vis \/ exists coord y, (coord, 24) ∈ todo /\
                                       decode coord = Some (c.1, y, c.2)) ->
            exists p, c ∈ p /\ seeded blocks p /\ saturated blocks p /\
                      ((50 < size p)%nat -> p ∈ res).
Proof.
  induction todo as [|[coord b] todo IH]; intros vis ps res H Hin Hcl Hcov c Hc;
    cbn [scan] in H.
  - inversion H; subst. destruct Hc as [Hc|(k & y & Hk & _)]; [by apply Hcov|].
    by apply elem_of_nil in Hk.
  - assert (forall kv, kv ∈ todo -> kv ∈ blocks) as Hin'
      by (intros kv Hkv; apply Hin; by right).
    destruct (decide (b ≠ 24)) as [Hb|Hb].
    { apply (IH _ _ _ H Hin' Hcl Hcov).
      destruct Hc as [Hc|(k & y & Hk & Hd)]; [by left|right].
      apply elem_of_cons in Hk as [[= -> <-]|Hk]; [by destruct Hb|]. by exists k, y. }
    assert (b = 24) as -> by (destruct (decide (b = 24)); [done|contradiction]).
    destruct (decode coord) as [[[x y] z]|] eqn:Hd; [|discriminate].
    destruct (decide ((x, z) ∈ vis)) as [Hv|Hv].
    { apply (IH _ _ _ H Hin' Hcl Hcov).
      destruct Hc as [Hc|(k & y' & Hk & Hd')]; [by left|].
      apply elem_of_cons in Hk as [[= ->]|Hk]; [|right; by exists k, y'].
      left. rewrite Hd in Hd'. injection Hd' as -> _ ->. by destruct c. }
    destruct (flood_fill fuel blocks vis (x, z)) as [[vis' plat]|] eqn:Hff;
      [|discriminate].
    pose proof (flood_fill_start _ _ _ _ _ _ Hv Hff) as Hstart.
    pose proof (flood_fill_linked _ _ _ _ _ _ Hff) as Hlinked.
    pose proof (flood_fill_fresh _ _ _ _ _ _ Hff) as (-> & Hd' & _).
    apply flood_fill_loop_closed in Hff as [_ Hcl'];
      [|intros c0 n Hc0; by apply elem_of_empty in Hc0].
    apply (IH _ _ _ H Hin').
    + intros c0 n Hc0 Hn Ht. apply elem_of_union in Hc0 as [Hc0|Hc0].
      * apply elem_of_union_l. by eapply Hcl.
      * by eapply Hcl'.
    + intros c0 Hc0. apply elem_of_union in Hc0 as [Hc0|Hc0].
      * destruct (Hcov c0 Hc0) as (p & Hp & Hs & Hsat & Hbig).
        exists p. repeat split; try done. intros Hsz. specialize (Hbig Hsz).
        destruct (decide (50 < size plat)%nat); [|done].
        apply elem_of_app. by left.
      * exists plat. split; [done|]. split; [|split].
        -- exists coord, x, y, z. split; [apply Hin; left|]. done.
        -- intros c1 n Hc1 Htc Hn Htn.
           specialize (Hcl' c1 n Hc1 Hn Htn).
           apply elem_of_union in Hcl' as [Hnv|]; [|done].
           exfalso. apply (Hd' c1 Hc1). apply (Hcl n c1 Hnv); [|done].
           by apply get_neighbors_sym.
        -- intros Hsz. rewrite decide_True by done.
           apply elem_of_app. right. by apply list_elem_of_singleton.
    + destruct Hc as [Hc|(k & y' & Hk & Hd'')]; [left; by apply elem_of_union_l|].
      apply elem_of_cons in Hk as [[= ->]|Hk]; [|right; by exists k, y'].
      left. rewrite Hd in Hd''. injection Hd'' as -> _ ->.
      apply elem_of_union_r. by destruct c.
Qed.

End Coverage.

(** X15: no seed is lost. For every key of value 24 that decodes to
    [(x, y, z)], the cell [(x, z)] lies in a set that is grown from a seed
    and closed under adjacency, and this set is one of the platforms
    returned when it has more than 50 cells. *)
Theorem every_seed_is_covered fuel blocks ps coord x y z :
  find_platforms fuel blocks = Done ps ->
  (coord, 24) ∈ blocks -> decode coord = Some (x, y, z) ->
  exists p, (x, z) ∈ p /\ seeded blocks p /\ saturated blocks p /\
            ((50 < size p)%nat -> p ∈ ps).
Proof.
  intros H Hin Hd.
  apply (scan_covers blocks fuel blocks ∅ [] ps H); [done| | |].
  - intros c n Hc. by apply elem_of_empty in Hc.
  - intros c Hc. by apply elem_of_empty in Hc.
  - right. by exists coord, y.
Qed.

Lemma every_seed_is_covered_witness :
  exists p, (23, 4) ∈ p /\ seeded two_squares_grid p /\ saturated two_squares_grid p /\
            ((50 < size p)%nat ->
             p ∈ [list_to_set (square_cells 0 0); list_to_set (square_cells 20 0)]).
Proof.
  apply (every_seed_is_covered _ _ _ (encode 23 0 4) 23 0 4 two_squares_platforms).
  - apply dict_get_elem_of. vm_compute. reflexivity.
  - apply decode_encode.
Defined.

Section OnlyTargets.

Lemma get_targets_only k (d : list (string * Z)) :
  NoDup d.*1 ->
  (Dict.get k (targets_only d) = Some 24 <-> Dict.get k d = Some 24).
Proof.
  unfold targets_only.
  induction d as [|[k0 v0] d IH]; intros Hnd; [done|].
  rewrite fmap_cons in Hnd. apply NoDup_cons in Hnd as [Hk0 Hnd].
  rewrite filter_cons. cbn [snd Dict.get].
  destruct (decide (v0 = 24)) as [->|Hv0].
  - cbn [Dict.get]. destruct (decide (k = k0)); [done|]. by apply IH.
  - destruct (decide (k = k0)) as [->|]; [|by apply IH].
    split; [|intros [= ?]; done].
    intros Hg. exfalso. apply Hk0.
    apply dict_get_elem_of, list_elem_of_filter in Hg as [_ Hg].
    apply list_elem_of_fmap. by exists (k0, 24).
Qed.

(** The flood fill reads the grid only through the test of the
    neighbours. *)
Lemma flood_fill_loop_ext b1 b2 fuel :
  (forall n, is_target b1 n <-> is_target b2 n) ->
  forall q vis plat,
    flood_fill_loop fuel b1 q vis plat = flood_fill_loop fuel b2 q vis plat.
Proof.
  intros Ht. induction fuel as [|fuel IH]; intros q vis plat; [done|].
  cbn [flood_fill_loop]. destruct q as [|c q]; [done|].
  destruct (decide (c ∈ vis)); [apply IH|].
  rewrite IH. f_equal. f_equal.
  apply list_filter_iff. intros m. by rewrite Ht.
Qed.

Lemma scan_targets_only b1 b2 fuel :
  (forall n, is_target b1 n <-> is_target b2 n) ->
  forall todo vis ps,
    scan fuel b1 (targets_only todo) vis ps = scan fuel b2 todo vis ps.
Proof.
  intros Ht. unfold targets_only.
  induction todo as [|[coord b] todo IH]; intros vis ps; [done|].
  rewrite filter_cons. cbn [snd].
  destruct (decide (b = 24)) as [->|Hb].
  - cbn [scan]. destruct (decide (24 ≠ 24)); [done|].
    destruct (decode coord) as [[[x y] z]|]; [|done].
    destruct (decide ((x, z) ∈ vis)); [apply IH|].
    unfold flood_fill. rewrite (flood_fill_loop_ext b1 b2 fuel Ht).
    destruct (flood_fill_loop fuel b2 [(x, z)] vis ∅) as [[vis' plat]|]; [|done].
    apply IH.
  - cbn [scan]. rewrite decide_True by done. apply IH.
Qed.

End OnlyTargets.

(** X16: the entries whose value is not 24 have no influence on the
    detection: on a dict (unique keys), [find_platforms] gives the same
    result on the grid and on its entries of value 24 alone. *)
Theorem only_targets_matter fuel blocks :
  NoDup blocks.*1 ->
  find_platforms fuel (targets_only blocks) = find_platforms fuel blocks.
Proof.
  intros Hnd. unfold find_platforms. apply scan_targets_only.
  intros n. unfold is_target. by apply get_targets_only.
Qed.

Lemma only_targets_matter_witness :
  find_platforms 30 (targets_only three_blocks_grid)
  = find_platforms 30 three_blocks_grid.
Proof.
  apply only_targets_matter.
  apply (bool_decide_unpack (NoDup three_blocks_grid.*1)). vm_compute. exact I.
Defined.

(** ** What [main] adds to the grid *)

Section Added.
Import Generator Main.
Local Open Scope R_scope.

Local Opaque generate_hanging_cone.

Lemma cone_loop_keys k : forall ps all s,
  is_Some (Dict.get k (cone_loop ps (all, s)).1) ->
  is_Some (Dict.get k all) \/ exists c, c ∈ cones ps s /\ is_Some (Dict.get k c).
Proof.
  induction ps as [|p ps IH]; intros all s H; [by left|].
  rewrite cone_loop_cons in H. rewrite cones_cons.
  apply IH in H as [H|(c & Hc & Hk)].
  - rewrite dict_get_update in H by apply generate_hanging_cone_NoDup.
    destruct (Dict.get k (generate_hanging_cone _ _ 0 30 s).1) eqn:E.
    + right. eexists. split; [left|]. by rewrite E.
    + by left.
  - right. exists c. split; [by right|done].
Qed.

Lemma cone_loop_ids : forall ps all s,
  Forall (fun kv => cone_block kv.2) all ->
  Forall (fun kv => cone_block kv.2) (cone_loop ps (all, s)).1.
Proof.
  induction ps as [|p ps IH]; intros all s H; [done|].
  rewrite cone_loop_cons. apply IH.
  apply dict_update_values; [apply generate_hanging_cone_ids|done].
Qed.

(** Each cone of the run is generated around the center of one of the
    platforms, from draws in [[0, 1)]. *)
Lemma cones_origin c : forall ps s,
  unit_draws s -> c ∈ cones ps s ->
  exists p s', p ∈ ps /\ unit_draws s' /\
    c = (generate_hanging_cone (center p).1 (center p).2 0 30 s').1.
Proof.
  induction ps as [|p ps IH]; intros s Hs Hc; [by apply elem_of_nil in Hc|].
  rewrite cones_cons in Hc. apply elem_of_cons in Hc as [->|Hc].
  - exists p, s. split; [left|done].
  - apply IH in Hc as (p' & s' & Hp' & Hs' & ->).
    + exists p', s'. split; [by right|done].
    + apply generate_hanging_cone_keeps; [exact unit_draws_tail|done].
Qed.

Local Transparent generate_hanging_cone.

(** A key of a cone: on the plane or on a layer in [-(depth-1) ... -1],
    within 18 of the axis of the cone. *)
Lemma cone_key_place cx cz start_y depth s k :
  unit_draws s ->
  is_Some (Dict.get k (generate_hanging_cone cx cz start_y depth s).1) ->
  exists x y z, decode k = Some (x, y, z) /\ (y = 0 \/ - depth < y < 0)%Z /\
                center_distance cx cz x z <= 18.
Proof.
  intros Hs Hk.
  apply generate_hanging_cone_keys_in in Hk as [Hk|(dx & y & dz & Hy & Hd & ->)].
  - revert Hk. pose proof (cap_layer_keys cx cz 15 s k) as Hkeys.
    pose proof (anchors_between 0 1 s (unit_draws_between s Hs)) as Hb.
    destruct (uniform_list 8 0 (2 * PI) s) as [angles s1].
    destruct (uniform_list 8 0.8 1.2 s1) as [offsets s2].
    intros Hk. apply Hkeys in Hk as (x & z & Hx & Hz & Hin & ->).
    exists (x + cx)%Z, 0%Z, (z + cz)%Z. rewrite decode_encode.
    split; [done|]. split; [lia|].
    unfold center_distance, cap_included in *.
    replace (x + cx - cx)%Z with x by lia. replace (z + cz - cz)%Z with z by lia.
    specialize (Hb (atan2 (IZR z) (IZR x))).
    set (m := get_radius_offset _ _ _) in *. lra.
  - exists (dx + cx)%Z, (- y)%Z, (dz + cz)%Z. rewrite decode_encode.
    split; [done|]. split; [lia|].
    unfold center_distance.
    replace (dx + cx - cx)%Z with dx by lia. replace (dz + cz - cz)%Z with dz by lia.
    pose proof (current_radius_below 15 depth y ltac:(lia)). lra.
Qed.

(** X17: every block id the cap layer and the cone hold is 37, 24 or
    4. *)
Theorem generated_ids_are_cone_blocks cx cz radius start_y depth s :
  Forall (fun kv => cone_block kv.2) (create_organic_platform_layer cx cz radius s).1 /\
  Forall (fun kv => cone_block kv.2) (generate_hanging_cone cx cz start_y depth s).1.
Proof.
  split; [apply create_organic_platform_layer_ids|apply generate_hanging_cone_ids].
Qed.

(** X18: what [main] adds. With draws in [[0, 1)], the grid a run
    returns is the input followed by added entries, and each added entry has
    a block id among 37, 24 and 4, on a layer in [-29 ... 0], within
    horizontal distance 18 of the center of one of the detected
    platforms. *)
Theorem run_adds_cones_only fuel blocks s blocks' :
  unit_draws s ->
  run fuel blocks s = Done blocks' ->
  exists platforms added,
    find_platforms fuel blocks = Done platforms /\
    blocks' = blocks ++ added /\
    Forall (fun kv =>
      cone_block kv.2 /\
      exists x y z p, decode kv.1 = Some (x, y, z) /\ (-29 <= y <= 0)%Z /\
        p ∈ platforms /\ center_distance (center p).1 (center p).2 x z <= 18) added.
Proof.
  intros Hs. unfold run.
  destruct (find_platforms fuel blocks) as [ps| |] eqn:E; intros [= <-].
  destruct (merge_appends (cone_loop ps ([], s)).1 blocks) as (added & Happ & Hadd).
  exists ps, added. split; [done|]. split; [done|].
  apply Forall_forall. intros [k v] Hkv. cbn [fst snd].
  destruct (Hadd k v Hkv) as [_ Hg]. split.
  - pose proof (cone_loop_ids ps [] s ltac:(constructor)) as Hids.
    apply dict_get_elem_of in Hg.
    by apply (proj1 (Forall_forall _ _) Hids (k, v)).
  - destruct (cone_loop_keys k ps [] s) as [[? [=]]|(c & Hc & Hk)]; [by eexists|].
    apply cones_origin in Hc as (p & s' & Hp & Hs' & ->); [|done].
    apply cone_key_place in Hk as (x & y & z & Hd & Hy & Hdist); [|done].
    exists x, y, z, p. repeat split; try done; lia.
Qed.

Lemma run_adds_cones_only_witness :
  exists platforms added,
    find_platforms 400 (square_grid 0 0) = Done platforms /\
    merge (square_grid 0 0)
      (cone_loop [list_to_set (square_cells 0 0)] ([], fun _ => 0.5)).1
    = square_grid 0 0 ++ added /\
    Forall (fun kv =>
      cone_block kv.2 /\
      exists x y z p, decode kv.1 = Some (x, y, z) /\ (-29 <= y <= 0)%Z /\
        p ∈ platforms /\ center_distance (center p).1 (center p).2 x z <= 18) added.
Proof.
  apply (run_adds_cones_only 400 (square_grid 0 0) (fun _ => 0.5)).
  - intros n. lra.
  - unfold run.
    rewrite (find_platforms_square 0 0 (square_grid 0 0)); [reflexivity|done|].
    vm_compute. lia.
Defined.

End Added.

(** ** Malformed keys, shallow cones and translation *)

Section Commas.

Lemma split_comma_length s : length (split_comma s) = S (commas s).
Proof.
  unfold commas. induction s as [|c s IH]; [done|].
  cbn [split_comma list_ascii_of_string]. rewrite filter_cons.
  destruct (Ascii.eqb_spec c ",") as [->|Hc].
  - rewrite decide_True by done. cbn [length]. by rewrite IH.
  - rewrite decide_False by done.
    destruct (split_comma s) as [|p ps]; [discriminate IH|]. exact IH.
Qed.

End Commas.

(** X19: a key that does not have exactly two commas does not decode:
    [map(int, coord.split(','))] raises [ValueError] on it. *)
Theorem decode_needs_two_commas coord :
  commas coord <> 2%nat -> decode coord = None.
Proof.
  intros Hc. pose proof (split_comma_length coord) as Hl. unfold decode.
  destruct (split_comma coord) as [|a [|b [|c [|d l]]]]; try done.
  cbn [length] in Hl. congruence.
Qed.

Lemma decode_needs_two_commas_witness : decode "3,0,4,1" = None.
Proof. apply decode_needs_two_commas. vm_compute. discriminate. Defined.

Section Shallow.
Import Generator Main.

Lemma dict_update_app (g : list (string * Z)) : forall d,
  NoDup (d ++ g).*1 -> Dict.update d g = d ++ g.
Proof.
  induction g as [|[k v] g IH]; intros d Hnd; [by rewrite app_nil_r|].
  rewrite dict_update_cons. cbn [fst snd].
  assert (Dict.get k d = None) as Hk.
  { apply dict_get_None. intros Hin.
    rewrite fmap_app, fmap_cons in Hnd. apply NoDup_app in Hnd as (_ & Hdis & _).
    apply (Hdis k Hin). left. }
  rewrite (dict_set_fresh _ _ _ Hk), IH; rewrite <- app_assoc; done.
Qed.

(** X20: with [depth <= 1] the loop over the hanging layers is empty:
    the cone is the cap layer, and the draws left are those the cap layer
    leaves. *)
Theorem shallow_cone_is_cap_layer cx cz start_y depth s :
  depth <= 1 ->
  generate_hanging_cone cx cz start_y depth s
  = create_organic_platform_layer cx cz 15 s.
Proof.
  intros Hd. pose proof (create_organic_platform_layer_NoDup cx cz 15 s) as Hnd.
  unfold generate_hanging_cone.
  destruct (create_organic_platform_layer cx cz 15 s) as [pb s1]. cbn [fst] in Hnd.
  unfold hanging_layers, range. rewrite seqZ_nil by lia. cbn [fold_left].
  by rewrite dict_update_app.
Qed.

Lemma shallow_cone_is_cap_layer_witness :
  generate_hanging_cone 4 (-2) 0 1 (fun _ => 0.5%R)
  = create_organic_platform_layer 4 (-2) 15 (fun _ => 0.5%R).
Proof. apply shallow_cone_is_cap_layer. lia. Defined.

End Shallow.

Section Shape.
Import Generator Main.
Variables cx cz : Z.

Lemma same_shape_set x y z v d1 d2 s :
  same_shape cx cz (d1, s) (d2, s) ->
  same_shape cx cz (Dict.set (encode (x + cx) y (z + cz)) v d1, s)
                   (Dict.set (encode (x + 0) y (z + 0)) v d2, s).
Proof.
  intros [_ (l & H1 & H2)]. cbn [fst] in H1, H2. subst d1 d2.
  split; [done|]. cbn [fst].
  induction l as [|[[[x0 y0] z0] v0] l (l' & IH1 & IH2)].
  - by exists [(x, y, z, v)].
  - unfold place. rewrite !fmap_cons. cbn [fst snd Dict.set].
    destruct (decide ((x, y, z) = (x0, y0, z0))) as [[= -> -> ->]|Hne].
    + rewrite !decide_True by done. by exists ((x0, y0, z0, v) :: l).
    + rewrite !decide_False.
      * exists ((x0, y0, z0, v0) :: l'). unfold place in IH1, IH2 |- *.
        rewrite !fmap_cons. cbn [fst snd]. by rewrite IH1, IH2.
      * intros (? & ? & ?)%encode_inj. apply Hne. f_equal; [f_equal|]; lia.
      * intros (? & ? & ?)%encode_inj. apply Hne. f_equal; [f_equal|]; lia.
Qed.

Lemma same_shape_update : forall g d1 d2 s,
  same_shape cx cz (d1, s) (d2, s) ->
  same_shape cx cz (Dict.update d1 (place cx cz g), s)
                   (Dict.update d2 (place 0 0 g), s).
Proof.
  induction g as [|[[[x y] z] v] g IH]; intros d1 d2 s H; [done|].
  unfold place. rewrite !fmap_cons, !dict_update_cons. cbn [fst snd].
  apply IH. by apply same_shape_set.
Qed.

Lemma same_shape_loop {A} (f g : A -> list (string * Z) * (nat -> R)
                                  -> list (string * Z) * (nat -> R)) :
  (forall a st1 st2, same_shape cx cz st1 st2 -> same_shape cx cz (f a st1) (g a st2)) ->
  forall l st1 st2, same_shape cx cz st1 st2 ->
    same_shape cx cz (fold_left (fun st a => f a st) l st1)
                     (fold_left (fun st a => g a st) l st2).
Proof.
  intros Hstep. induction l as [|a l IH]; intros st1 st2 H; [done|].
  cbn [fold_left]. by apply IH, Hstep.
Qed.

Lemma same_shape_cap_cell radius angles offsets x z st1 st2 :
  same_shape cx cz st1 st2 ->
  same_shape cx cz (cap_cell radius angles offsets cx cz x z st1)
                   (cap_cell radius angles offsets 0 0 x z st2).
Proof.
  destruct st1 as [d1 s], st2 as [d2 s']. intros H.
  assert (s' = s) as -> by (destruct H as [Hs _]; cbn [snd] in Hs; done).
  unfold cap_cell.
  destruct (Rle_dec _ _); [|done].
  destruct (Rle_dec _ _).
  - destruct (Rlt_dec _ _).
    + destruct (stone_or_cobble s) as [b s2].
      apply same_shape_set. by destruct H as [_ H].
    + by apply same_shape_set.
  - unfold random. destruct (Rlt_dec _ _).
    + apply same_shape_set. by destruct H as [_ H].
    + destruct (stone_or_cobble _) as [b s2].
      apply same_shape_set. by destruct H as [_ H].
Qed.

Lemma same_shape_hanging_cell cur y x z st1 st2 :
  same_shape cx cz st1 st2 ->
  same_shape cx cz (hanging_cell cur cx cz y x z st1)
                   (hanging_cell cur 0 0 y x z st2).
Proof.
  destruct st1 as [d1 s], st2 as [d2 s']. intros H.
  assert (s' = s) as -> by (destruct H as [Hs _]; cbn [snd] in Hs; done).
  unfold hanging_cell.
  destruct (Rle_dec _ _); [|done].
  destruct (Rlt_dec _ _).
  - unfold random. destruct (Rlt_dec _ _).
    + by destruct H as [_ H].
    + destruct (hanging_block _) as [b s2].
      apply same_shape_set. by destruct H as [_ H].
  - destruct (hanging_block s) as [b s2].
    apply same_shape_set. by destruct H as [_ H].
Qed.

Lemma same_shape_cap_layer radius s :
  same_shape cx cz (create_organic_platform_layer cx cz radius s)
                   (create_organic_platform_layer 0 0 radius s).
Proof.
  unfold create_organic_platform_layer.
  destruct (uniform_list 8 0 (2 * PI) s) as [angles s1].
  destruct (uniform_list 8 0.8 1.2 s1) as [offsets s2].
  apply (same_shape_loop
           (fun x st => fold_left
              (fun st z => cap_cell radius angles offsets cx cz x z st) _ st)
           (fun x st => fold_left
              (fun st z => cap_cell radius angles offsets 0 0 x z st) _ st)).
  - intros x st1 st2 H.
    apply (same_shape_loop
             (fun z st => cap_cell radius angles offsets cx cz x z st)
             (fun z st => cap_cell radius angles offsets 0 0 x z st)); [|done].
    intros z st1' st2'. apply same_shape_cap_cell.
  - split; [done|]. by exists [].
Qed.

Lemma same_shape_hanging_layers max_radius depth st1 st2 :
  same_shape cx cz st1 st2 ->
  same_shape cx cz (hanging_layers max_radius depth cx cz st1)
                   (hanging_layers max_radius depth 0 0 st2).
Proof.
  unfold hanging_layers.
  apply (same_shape_loop
           (fun y st => hanging_layer max_radius depth cx cz y st)
           (fun y st => hanging_layer max_radius depth 0 0 y st)).
  intros y st1' st2' H. unfold hanging_layer.
  apply (same_shape_loop
           (fun x st => fold_left
              (fun st z => hanging_cell (current_radius max_radius depth y) cx cz y x z st)
              _ st)
           (fun x st => fold_left
              (fun st z => hanging_cell (current_radius max_radius depth y) 0 0 y x z st)
              _ st)); [|done].
  intros x st1'' st2'' H'.
  apply (same_shape_loop
           (fun z st => hanging_cell (current_radius max_radius depth y) cx cz y x z st)
           (fun z st => hanging_cell (current_radius max_radius depth y) 0 0 y x z st));
    [|done].
  intros z st1''' st2'''. apply same_shape_hanging_cell.
Qed.

End Shape.

(** X21: the shape of a cone does not depend on its center. For the same
    draws, the cone around [(cx, cz)] and the cone around the origin hold
    the same list of blocks, in the same order, each at the same offsets
    from its center, and they leave the same draws. *)
Theorem cone_shape_independent_of_center cx cz start_y depth s :
  (Generator.generate_hanging_cone cx cz start_y depth s).2
  = (Generator.generate_hanging_cone 0 0 start_y depth s).2 /\
  exists l,
    (Generator.generate_hanging_cone cx cz start_y depth s).1 = place cx cz l /\
    (Generator.generate_hanging_cone 0 0 start_y depth s).1 = place 0 0 l.
Proof.
  change (same_shape cx cz (Generator.generate_hanging_cone cx cz start_y depth s)
            (Generator.generate_hanging_cone 0 0 start_y depth s)).
  unfold Generator.generate_hanging_cone.
  pose proof (same_shape_cap_layer cx cz 15 s) as H.
  destruct (Generator.create_organic_platform_layer cx cz 15 s) as [pb1 s1].
  destruct (Generator.create_organic_platform_layer 0 0 15 s) as [pb2 s2].
  destruct H as [Hs (l & H1 & H2)]. cbn [fst snd] in Hs, H1, H2. subst s2 pb1 pb2.
  apply same_shape_hanging_layers.
  apply (same_shape_update cx cz l [] [] s1).
  split; [done|]. by exists [].
Qed.

(** ** Grids with every block 24 on the plane *)

Section Flat.
Variable blocks : list (string * Z).
Hypothesis Hnd : NoDup blocks.*1.
Hypothesis Hflat : flat_targets blocks.

Lemma flat_seeded_targets p c : seeded blocks p -> c ∈ p -> is_target blocks c.
Proof.
  intros (coord & x & y & z & Hin & Hd & _ & Hl) Hc.
  destruct (linked_seed_or_target _ _ _ _ (Hl c Hc)) as [->|Ht]; [|done].
  destruct (Hflat coord Hin) as (x' & z' & ->).
  rewrite decode_encode in Hd. injection Hd as <- _ <-.
  unfold is_target. cbn [fst snd]. by apply dict_get_NoDup.
Qed.

Lemma saturated_linked p Q a c :
  (forall d, d ∈ p -> is_target blocks d) -> saturated blocks p ->
  a ∈ p -> linked blocks Q a c -> c ∈ p.
Proof.
  intros Ht Hsat Ha. induction 1 as [_|b c _ IH Hn Htc _]; [done|].
  apply (Hsat b c); [done|by apply Ht|done|done].
Qed.

End Flat.

(** X22: on a dict whose blocks 24 all lie on the plane [y = 0] under
    printed keys, every member of a platform holds block 24 at [y = 0], and
    a platform holds every cell that can be reached from one of its members
    by steps to 4-adjacent cells holding block 24 at [y = 0]: the platforms
    are whole connected components. *)
Theorem flat_grid_platforms_are_components fuel blocks ps :
  NoDup blocks.*1 -> flat_targets blocks ->
  find_platforms fuel blocks = Done ps ->
  Forall (fun p =>
    (forall c, c ∈ p -> is_target blocks c) /\
    (forall Q a c, a ∈ p -> linked blocks Q a c -> c ∈ p)) ps.
Proof.
  intros Hnd Hflat H.
  pose proof (scan_seeded blocks fuel blocks ∅ [] ps H ltac:(done) ltac:(constructor))
    as Hseed.
  assert (Forall (saturated blocks) ps) as Hsat.
  { apply (scan_saturated blocks fuel blocks ∅ [] ps H); [|constructor].
    intros c n Hc. by apply elem_of_empty in Hc. }
  apply Forall_forall. intros p Hp.
  pose proof (proj1 (Forall_forall _ _) Hseed p Hp) as Hs.
  pose proof (proj1 (Forall_forall _ _) Hsat p Hp) as Hst.
  assert (forall c, c ∈ p -> is_target blocks c) as Ht
    by (intros c; by apply flat_seeded_targets).
  split; [done|]. intros Q a c. by apply saturated_linked.
Qed.

Lemma flat_grid_platforms_are_components_witness :
  Forall (fun p : gset (Z * Z) =>
    (forall c, c ∈ p -> is_target two_squares_grid c) /\
    (forall Q a c, a ∈ p -> linked two_squares_grid Q a c -> c ∈ p))
    [list_to_set (square_cells 0 0); list_to_set (square_cells 20 0)].
Proof.
  apply (flat_grid_platforms_are_components (flood_fuel two_squares_grid)).
  - apply (bool_decide_unpack (NoDup two_squares_grid.*1)). vm_compute. exact I.
  - intros coord Hin. unfold two_squares_grid, square_grid in Hin.
    apply elem_of_app in Hin as [Hin|Hin];
      apply list_elem_of_fmap in Hin as (c & [= ->] & _); eauto.
  - exact two_squares_platforms.
Defined.

(** ** What [main] leaves under a platform *)

Section Filled.
Import Generator Main.
Local Open Scope R_scope.

Local Opaque generate_hanging_cone.




Local Transparent generate_hanging_cone.



End Filled.
